(** * Strip reordering of a BMP image: a shallow embedding of
      [image_reconstruction.py] and the properties of its ordering core.

    The development follows the source file top to bottom: the doubly-linked
    [LinkedList], [rows_comparison], [find_bottom_strip],
    [find_most_similar_strip_for_upwards], [build_from_bottom] and
    [merge_ordered_strips].  Python exceptions are values of [result];
    the list that [build_from_bottom] mutates is threaded explicitly. *)

From Stdlib Require Import ZArith Lia.
From stdpp Require Import list.

Local Open Scope Z_scope.

(** ** Exceptions *)

Inductive exn : Set :=
| IndexError   (* subscript out of range: [xs[0]], [xs[-1]], [xs[i]] *)
| ValueError.  (* [min()] of an empty sequence, [list.remove(x)] with x absent *)

Inductive result (A : Type) : Type :=
| Ok (a : A)
| Raise (e : exn).
Arguments Ok {A} a.
Arguments Raise {A} e.

Definition bind {A B : Type} (m : result A) (k : A -> result B) : result B :=
  match m with
  | Ok a => k a
  | Raise e => Raise e
  end.

Notation "'let*' x ':=' m 'in' k" := (bind m (fun x => k))
  (at level 10, x pattern, m at level 100, k at level 200).

(** A [for] loop whose body may raise: the accumulator is the loop's state. *)
Fixpoint for_each {A S : Type} (body : S -> A -> result S) (xs : list A) (s : S)
  : result S :=
  match xs with
  | [] => Ok s
  | x :: xs' => let* s' := body s x in for_each body xs' s'
  end.

(** A generator expression consumed eagerly: the first raising element aborts. *)
Fixpoint collect {A B : Type} (f : A -> result B) (xs : list A) : result (list B) :=
  match xs with
  | [] => Ok []
  | x :: xs' =>
      let* y := f x in
      let* ys := collect f xs' in
      Ok (y :: ys)
  end.

(** [xs[i]] for a non-negative index. *)
Definition subscript {A : Type} (xs : list A) (i : nat) : result A :=
  match xs !! i with
  | Some x => Ok x
  | None => Raise IndexError
  end.

(** [xs[-1]]. *)
Definition subscript_last {A : Type} (xs : list A) : result A :=
  match last xs with
  | Some x => Ok x
  | None => Raise IndexError
  end.

(** [sum(...)] over integers: starts at 0 and adds left to right. *)
Definition py_sum (xs : list Z) : Z := fold_left Z.add xs 0.

(** [min(...)]: raises [ValueError] on an empty sequence. *)
Definition py_min (xs : list Z) : result Z :=
  match xs with
  | [] => Raise ValueError
  | x :: xs' => Ok (fold_left Z.min xs' x)
  end.

(** ** The image abstraction *)

(** Modelled from the spec: the [Pixel] class of the imported [image] module is
    not part of the source file.  The spec (section 3) describes a pixel as a
    triple of integer colour channels; the source reads them with [get_r],
    [get_g] and [get_b]. *)
Record Pixel : Set := mkPixel { get_r : Z; get_g : Z; get_b : Z }.

(** A row of pixels is a Python list of [Pixel] objects. *)
Abbreviation Row := (list Pixel).

(** Modelled from the spec: the [Image] class of the imported [image] module is
    not part of the source file.  The spec (sections 1 and 3) describes it as a
    fixed width and height with row-major pixel access; the source uses the
    attribute [pixels] (a list of rows), [get_width], [get_height],
    [get_pixel(row, col)], [set_pixel(row, col, pixel)] and the constructor
    [Image(width, height)]. *)
Record Image : Set := mkImage {
  get_width : nat;
  get_height : nat;
  pixels : list Row
}.

(** The abstraction's invariant: [pixels] holds [get_height] rows of
    [get_width] pixels each. *)
Definition well_formed (img : Image) : Prop :=
  length (pixels img) = get_height img /\
  Forall (fun row => length row = get_width img) (pixels img).

(** A strip that has a first and a last row. *)
Definition has_rows (img : Image) : Prop := pixels img <> [].

Definition black : Pixel := mkPixel 0 0 0.
Definition white : Pixel := mkPixel 255 255 255.
Definition gray : Pixel := mkPixel 128 128 128.

(** Modelled from the spec: [Image(width, height)] allocates a
    [height] x [width] buffer; its initial colour is not observable in the
    properties below and is taken to be black. *)
Definition new_image (width height : nat) : Image :=
  mkImage width height (replicate height (replicate width black)).

(** Modelled from the spec: row-major read; an index outside the buffer raises. *)
Definition get_pixel (img : Image) (row col : nat) : result Pixel :=
  let* r := subscript (pixels img) row in
  subscript r col.

(** Modelled from the spec: row-major write; an index outside the buffer
    raises, otherwise exactly one cell changes. *)
Definition set_pixel (img : Image) (row col : nat) (p : Pixel) : result Image :=
  let* r := subscript (pixels img) row in
  if decide (col < length r)%nat
  then Ok (mkImage (get_width img) (get_height img)
                   (<[row := <[col := p]> r]> (pixels img)))
  else Raise IndexError.

(** ** [rows_comparison] *)

Definition channel_terms (pp : Pixel * Pixel) : Z :=
  let (p1, p2) := pp in
  (get_r p1 - get_r p2) ^ 2 +
  (get_g p1 - get_g p2) ^ 2 +
  (get_b p1 - get_b p2) ^ 2.

Definition rows_comparison (rowA rowB : Row) : Z :=
  py_sum (map channel_terms (zip rowA rowB)).

(** The distance as section 4.1 of the spec words it for rows of differing
    length: positions [0 .. min(len A, len B) - 1], index by index. *)
Definition truncated_distance (rowA rowB : Row) : Z :=
  let n := Nat.min (length rowA) (length rowB) in
  foldr Z.add 0
    (map (fun i => channel_terms (nth i rowA black, nth i rowB black)) (seq 0 n)).

(** ** Strips as objects *)

(** The lists handled by the source hold references to [Image] objects.  The
    source compares strips with [other != candidate] and [list.remove], which
    for a class that does not override equality is object identity, so a strip
    is modelled by its identity and the (never mutated) contents are read
    through an object store. *)
Definition Strip : Set := nat.

(** ** [Node] and [LinkedList] *)

(** Nodes live in a node store and point to each other by address. *)
Record Node : Set := mkNode {
  strip : Strip;
  prev : option nat;
  next : option nat
}.

Record LinkedList : Set := mkLinkedList {
  nodes : list Node;      (* the node store; a new node gets the next address *)
  head : nat;
  tail : nat
}.

(** [LinkedList.__init__] *)
Definition LinkedList_init (s : Strip) : LinkedList :=
  mkLinkedList [mkNode s None None] 0 0.

Definition set_prev (p : option nat) (n : Node) : Node :=
  mkNode (strip n) p (next n).

Definition set_next (p : option nat) (n : Node) : Node :=
  mkNode (strip n) (prev n) p.

(** [LinkedList.prepend] *)
Definition prepend (l : LinkedList) (s : Strip) : LinkedList :=
  let new_node := length (nodes l) in
  let allocated := nodes l ++ [mkNode s None (Some (head l))] in
  mkLinkedList (alter (set_prev (Some new_node)) (head l) allocated)
               new_node (tail l).

(** [LinkedList.append] *)
Definition append (l : LinkedList) (s : Strip) : LinkedList :=
  let new_node := length (nodes l) in
  let allocated := nodes l ++ [mkNode s (Some (tail l)) None] in
  mkLinkedList (alter (set_next (Some new_node)) (tail l) allocated)
               (head l) new_node.

(** The [while current:] loop of [to_list].  [None] means that the walk did
    not finish within [fuel] steps or met an address outside the node store. *)
Fixpoint to_list_walk (fuel : nat) (ns : list Node) (current : option nat)
    (ordered_strips : list Strip) : option (list Strip) :=
  match current with
  | None => Some ordered_strips
  | Some a =>
      match fuel with
      | O => None
      | S fuel' =>
          match ns !! a with
          | None => None
          | Some n => to_list_walk fuel' ns (next n) (ordered_strips ++ [strip n])
          end
      end
  end.

(** [LinkedList.to_list]: a walk along [next] visits every node at most once,
    so the size of the node store bounds it. *)
Definition to_list (l : LinkedList) : option (list Strip) :=
  to_list_walk (length (nodes l)) (nodes l) (Some (head l)) [].

(** [linked.head.strip] *)
Definition head_strip (l : LinkedList) : option Strip :=
  strip <$> nodes l !! head l.

(** ** The ordering core *)

(** [float("inf")] next to the integer distances it is compared with. *)
Inductive distance : Set :=
| Finite (d : Z)
| Infinity.

(** [d < best] for an integer [d]. *)
Definition below (d : Z) (best : distance) : bool :=
  match best with
  | Infinity => true
  | Finite b => d <? b
  end.

(** [image_strips.remove(x)]: drops the first occurrence, raises if absent. *)
Fixpoint list_remove (x : Strip) (xs : list Strip) : result (list Strip) :=
  match xs with
  | [] => Raise ValueError
  | y :: xs' =>
      if decide (y = x) then Ok xs'
      else let* r := list_remove x xs' in Ok (y :: r)
  end.

Section Core.

Variable store : Strip -> Image.

(** [s.pixels[0]] and [s.pixels[-1]] *)
Definition top_row (s : Strip) : result Row := subscript (pixels (store s)) 0.
Definition bottom_row (s : Strip) : result Row := subscript_last (pixels (store s)).

(** The [min(...)] of [find_bottom_strip] for one candidate. *)
Definition best_match_score (strips : list Strip) (candidate : Strip) : result Z :=
  let* bottom := bottom_row candidate in
  let* scores :=
    collect (fun other => let* top := top_row other in
                          Ok (rows_comparison bottom top))
            (filter (fun other => other <> candidate) strips) in
  py_min scores.

(** One iteration of the loop of [find_bottom_strip]; the state is
    [(best_strip, worst_match_score)]. *)
Definition find_bottom_step (strips : list Strip) (st : option Strip * Z)
    (candidate : Strip) : result (option Strip * Z) :=
  let* score := best_match_score strips candidate in
  if snd st <? score then Ok (Some candidate, score) else Ok st.

Definition find_bottom_strip (strips : list Strip) : result (option Strip) :=
  let* st := for_each (find_bottom_step strips) strips (None, -1) in
  Ok (fst st).

(** One iteration of the loop of [find_most_similar_strip_for_upwards]; the
    state is [(best_match, best_distance)]. *)
Definition upwards_step (current_top_row : Row) (st : option Strip * distance)
    (candidate : Strip) : result (option Strip * distance) :=
  let* candidate_bottom_row := bottom_row candidate in
  let d := rows_comparison current_top_row candidate_bottom_row in
  if below d (snd st) then Ok (Some candidate, Finite d) else Ok st.

Definition find_most_similar_strip_for_upwards (current_top_strip : Strip)
    (candidate_strips : list Strip) : result (option Strip) :=
  let* current_top_row := top_row current_top_strip in
  let* st := for_each (upwards_step current_top_row) candidate_strips
                      (None, Infinity) in
  Ok (fst st).

(** The [while image_strips:] loop of [build_from_bottom].  The state is the
    linked list and the caller's list.  [None] means that [fuel] iterations
    were not enough or that [linked.head] is not a node. *)
Fixpoint chain_upwards (fuel : nat) (linked : LinkedList)
    (image_strips : list Strip) : option (result (LinkedList * list Strip)) :=
  match image_strips with
  | [] => Some (Ok (linked, image_strips))
  | _ :: _ =>
      match fuel with
      | O => None
      | S fuel' =>
          match head_strip linked with
          | None => None
          | Some current_top_strip =>
              match find_most_similar_strip_for_upwards
                      current_top_strip image_strips with
              | Raise e => Some (Raise e)
              | Ok None => Some (Ok (linked, image_strips))       (* break *)
              | Ok (Some best_match) =>
                  let linked' := prepend linked best_match in
                  match list_remove best_match image_strips with
                  | Raise e => Some (Raise e)
                  | Ok image_strips' => chain_upwards fuel' linked' image_strips'
                  end
              end
          end
      end
  end.

(** [build_from_bottom].  The result pairs the returned list with the final
    contents of the argument list, which the source mutates in place.  Every
    iteration of the loop removes one strip, so the length of the list bounds
    the number of iterations. *)
Definition build_from_bottom (image_strips : list Strip)
  : option (result (list Strip * list Strip)) :=
  match find_bottom_strip image_strips with
  | Raise e => Some (Raise e)
  | Ok None => Some (Raise ValueError)          (* [image_strips.remove(None)] *)
  | Ok (Some bottom_strip) =>
      match list_remove bottom_strip image_strips with
      | Raise e => Some (Raise e)
      | Ok remaining =>
          match chain_upwards (length remaining)
                              (LinkedList_init bottom_strip) remaining with
          | None => None
          | Some (Raise e) => Some (Raise e)
          | Some (Ok (linked, left_over)) =>
              match to_list linked with
              | None => None
              | Some ordered => Some (Ok (ordered, left_over))
              end
          end
      end
  end.

(** The two inner loops of [merge_ordered_strips] for one strip. *)
Definition copy_strip (s : Strip) (current_height : nat) (final_image : Image)
  : result Image :=
  for_each
    (fun img row =>
       for_each
         (fun img' col =>
            let* p := get_pixel (store s) row col in
            set_pixel img' (current_height + row) col p)
         (seq 0 (get_width (store s))) img)
    (seq 0 (get_height (store s))) final_image.

(** One iteration of the outer loop; the state is
    [(final_image, current_height)]. *)
Definition merge_step (st : Image * nat) (s : Strip) : result (Image * nat) :=
  let* img := copy_strip s (snd st) (fst st) in
  Ok (img, (snd st + get_height (store s))%nat).

Definition merge_ordered_strips (ordered_strips : list Strip) : result Image :=
  let total_height :=
    fold_left Nat.add (map (fun s => get_height (store s)) ordered_strips) 0%nat in
  let* first := subscript ordered_strips 0 in
  let width := get_width (store first) in
  let final_image := new_image width total_height in
  let* st := for_each merge_step ordered_strips (final_image, 0%nat) in
  Ok (fst st).

(** The pipeline of [main] between loading and saving. *)
Definition reconstruct (image_strips : list Strip) : option (result Image) :=
  match build_from_bottom image_strips with
  | None => None
  | Some (Raise e) => Some (Raise e)
  | Some (Ok (ordered, _)) => Some (merge_ordered_strips ordered)
  end.

(** The same pipeline with the caller's list as state: the image is paired
    with the contents [build_from_bottom] has left in the list it was given. *)
Definition reconstruct_consuming (image_strips : list Strip)
  : option (result (Image * list Strip)) :=
  match build_from_bottom image_strips with
  | None => None
  | Some (Raise e) => Some (Raise e)
  | Some (Ok (ordered, left_over)) =>
      Some (let* img := merge_ordered_strips ordered in Ok (img, left_over))
  end.

(** The pipeline run twice on one list object: when the first run returns an
    image, the second run is given the list as the first one left it.  The
    result pairs the first image with the outcome of the second run. *)
Definition reconstruct_twice (image_strips : list Strip)
  : option (result (Image * result Image)) :=
  match reconstruct_consuming image_strips with
  | None => None
  | Some (Raise e) => Some (Raise e)
  | Some (Ok (img, left_over)) =>
      match reconstruct left_over with
      | None => None
      | Some second => Some (Ok (img, second))
      end
  end.

End Core.

(** * Specification vocabulary *)

(** [represents l xs]: read from head to tail, [l] holds the strips [xs].
    Nodes are stored in creation order, which for a list grown by [prepend]
    is tail first, and each [next] pointer leads to the node created just
    before. *)
Definition represents (l : LinkedList) (xs : list Strip) : Prop :=
  length (nodes l) = length xs /\
  S (head l) = length xs /\
  forall i nd, nodes l !! i = Some nd ->
    reverse xs !! i = Some (strip nd) /\
    next nd = match i with O => None | S j => Some j end.


Section Vocabulary.

Variable store : Strip -> Image.

Definition first_row_of (s : Strip) (t : Row) : Prop :=
  pixels (store s) !! 0%nat = Some t.

Definition last_row_of (s : Strip) (b : Row) : Prop :=
  last (pixels (store s)) = Some b.

(** [best_match strips c m]: [m] is the best match score of [c], the least
    distance between the last row of [c] and the first row of another strip
    of [strips]. *)
Definition best_match (strips : list Strip) (c : Strip) (m : Z) : Prop :=
  exists b, last_row_of c b /\
    (exists o t, o ∈ strips /\ o <> c /\ first_row_of o t /\
                 rows_comparison b t = m) /\
    (forall o t, o ∈ strips -> o <> c -> first_row_of o t ->
                 m <= rows_comparison b t).

(** [upward_distance cur c d]: [d] is the distance between the first row of
    [cur] and the last row of [c]. *)
Definition upward_distance (cur c : Strip) (d : Z) : Prop :=
  exists t b, first_row_of cur t /\ last_row_of c b /\
              d = rows_comparison t b.

(** The score the chainer gives a candidate. *)
Definition upward_key (current_top_row : Row) (candidate : Strip) : result Z :=
  let* b := bottom_row store candidate in
  Ok (rows_comparison current_top_row b).

End Vocabulary.

(** Both selection loops have one shape: a score per element, and a running
    best that is replaced only on a strict improvement. *)
Definition first_best_step {A S : Type} (key : A -> result Z)
    (improves : Z -> S -> bool) (inject : Z -> S)
    (st : option A * S) (x : A) : result (option A * S) :=
  let* k := key x in
  if improves k (snd st) then Ok (Some x, inject k) else Ok st.

(** What such a loop has established after the elements [xs]. *)
Definition first_best_inv {A S : Type} (key : A -> result Z) (inject : Z -> S)
    (init : S) (better : Z -> Z -> bool) (xs : list A) (st : option A * S)
  : Prop :=
  match fst st with
  | None => xs = [] /\ snd st = init
  | Some x =>
      exists i k, snd st = inject k /\ xs !! i = Some x /\ key x = Ok k /\
        forall j x' k', xs !! j = Some x' -> key x' = Ok k' ->
          better k' k = false /\ ((j < i)%nat -> better k k' = true)
  end.

(** The vertical offset at which the compositor places strip number [i]: the
    sum of the heights of the strips before it. *)
Definition offset_of (store : Strip -> Image) (ordered : list Strip) (i : nat)
  : nat :=
  sum_list_with (fun s => get_height (store s)) (take i ordered).

(** Two lists of strips alias alike: whenever two positions hold the same
    object in one list they do so in the other. *)
Definition same_identities (l1 l2 : list Strip) : Prop :=
  forall i j a a' b b',
    l1 !! i = Some a -> l1 !! j = Some a' ->
    l2 !! i = Some b -> l2 !! j = Some b' ->
    (a = a' <-> b = b').

(** Two runs agree: both return related values or both raise the same
    exception. *)
Inductive result_rel {A B : Type} (R : A -> B -> Prop)
  : result A -> result B -> Prop :=
| result_rel_Ok (a : A) (b : B) : R a b -> result_rel R (Ok a) (Ok b)
| result_rel_Raise (e : exn) : result_rel R (Raise e) (Raise e).

(** The state of a selection loop in the two runs. *)
Definition selection_rel {K : Type} (R : Strip -> Strip -> Prop)
    (st1 st2 : option Strip * K) : Prop :=
  option_Forall2 R (fst st1) (fst st2) /\ snd st1 = snd st2.

(** The two linked lists hold related strips. *)
Definition linked_rel (R : Strip -> Strip -> Prop) (ll1 ll2 : LinkedList) : Prop :=
  exists xs1 xs2, represents ll1 xs1 /\ represents ll2 xs2 /\ Forall2 R xs1 xs2.

(** The strips of the end-to-end scenario of the spec (section 8): three
    strips, one row of two pixels each, black, white and gray; every other
    object is an image without rows. *)
Definition scenario_store (s : Strip) : Image :=
  match s with
  | 0%nat => mkImage 2 1 [[black; black]]
  | 1%nat => mkImage 2 1 [[white; white]]
  | 2%nat => mkImage 2 1 [[gray; gray]]
  | _ => mkImage 0 0 []
  end.

(** The same three images loaded a second time, as other objects. *)
Definition reloaded_store (s : Strip) : Image :=
  match s with
  | 7%nat => mkImage 2 1 [[black; black]]
  | 5%nat => mkImage 2 1 [[white; white]]
  | 9%nat => mkImage 2 1 [[gray; gray]]
  | _ => mkImage 0 0 []
  end.

(** ** Vocabulary for the linked list as a whole *)

(** The linked lists the class can produce: the constructor followed by calls
    of [prepend] and [append].  The second index lists the strips handed
    over, those prepended in front and those appended behind. *)
Inductive built : LinkedList -> list Strip -> Prop :=
| built_init (s : Strip) : built (LinkedList_init s) [s]
| built_prepend (l : LinkedList) (xs : list Strip) (s : Strip) :
    built l xs -> built (prepend l s) (s :: xs)
| built_append (l : LinkedList) (xs : list Strip) (s : Strip) :
    built l xs -> built (append l s) (xs ++ [s]).

(** [linked_along l addrs xs]: the node store of [l] consists of the nodes at
    the addresses [addrs], which taken in this order carry the strips [xs]
    and are chained in both directions, from [head] to [tail]. *)
Definition linked_along (l : LinkedList) (addrs : list nat) (xs : list Strip)
  : Prop :=
  length (nodes l) = length addrs /\
  length xs = length addrs /\
  NoDup addrs /\
  (forall a, (a < length (nodes l))%nat -> a ∈ addrs) /\
  addrs !! 0%nat = Some (head l) /\
  last addrs = Some (tail l) /\
  forall k a, addrs !! k = Some a ->
    exists nd, nodes l !! a = Some nd /\
      xs !! k = Some (strip nd) /\
      prev nd = match k with O => None | S j => addrs !! j end /\
      next nd = addrs !! S k.

(** A list made with all three operations: [LinkedList(1)], then
    [prepend(0)], then [append(2)]. *)
Definition sample_list : LinkedList :=
  append (prepend (LinkedList_init 1%nat) 0%nat) 2%nat.

(** ** Vocabulary for the builder's result *)

(** [has_other strips c]: the list holds a strip that is not [c]. *)
Definition has_other (strips : list Strip) (c : Strip) : Prop :=
  exists o, o ∈ strips /\ o <> c.

(** What the builder needs of its input to return a list. *)
Definition orderable (store : Strip -> Image) (strips : list Strip) : Prop :=
  strips <> [] /\
  Forall (fun s => has_rows (store s)) strips /\
  forall c, c ∈ strips -> has_other strips c.

(** [chained store out]: every strip of [out] sits on the strip below it as
    the nearest of the strips at or above its own position: none of those
    has a last row closer to the first row of the strip below. *)
Definition chained (store : Strip -> Image) (out : list Strip) : Prop :=
  forall k a b, out !! k = Some a -> out !! S k = Some b ->
    exists d, upward_distance store b a d /\
      forall j c d', (j <= k)%nat -> out !! j = Some c ->
        upward_distance store b c d' -> d <= d'.

(** Two object stores show the same first and last row for every strip. *)
Definition same_border_rows (store1 store2 : Strip -> Image) : Prop :=
  forall s,
    pixels (store1 s) !! 0%nat = pixels (store2 s) !! 0%nat /\
    last (pixels (store1 s)) = last (pixels (store2 s)).

(** The scenario's strips again, each now three rows high: the border rows
    are those of the scenario, the middle row differs. *)
Definition tall_store (s : Strip) : Image :=
  match s with
  | 0%nat => mkImage 2 3 [[black; black]; [white; gray]; [black; black]]
  | 1%nat => mkImage 2 3 [[white; white]; [black; black]; [white; white]]
  | 2%nat => mkImage 2 3 [[gray; gray]; [black; white]; [gray; gray]]
  | _ => mkImage 0 0 []
  end.

(** ** Vocabulary for the compositor and the pipeline *)

(** Strips that can be stacked: well-formed images of one width [w]. *)
Definition stackable (store : Strip -> Image) (w : nat) (strips : list Strip)
  : Prop :=
  Forall (fun s => well_formed (store s)) strips /\
  Forall (fun s => get_width (store s) = w) strips.

(** The rows of the strips, one strip after the other. *)
Definition stacked_rows (store : Strip -> Image) (strips : list Strip)
  : list (list Pixel) :=
  concat (map (fun s => pixels (store s)) strips).
(** * Properties *)

(** ** The row distance *)

Section RowDistance.

Lemma fold_add_shift (xs : list Z) (a : Z) :
  fold_left Z.add xs a = a + fold_left Z.add xs 0.
Proof.
  revert a. induction xs as [|x xs IH]; intros a; simpl; [lia|].
  rewrite (IH (a + x)), (IH (0 + x)). lia.
Qed.

Lemma py_sum_cons (x : Z) (xs : list Z) : py_sum (x :: xs) = x + py_sum xs.
Proof. unfold py_sum. simpl. apply fold_add_shift. Qed.

Lemma rows_comparison_nil_l (rowB : Row) : rows_comparison [] rowB = 0.
Proof. reflexivity. Qed.

Lemma rows_comparison_nil_r (rowA : Row) : rows_comparison rowA [] = 0.
Proof. destruct rowA; reflexivity. Qed.

Lemma rows_comparison_cons (p q : Pixel) (rowA rowB : Row) :
  rows_comparison (p :: rowA) (q :: rowB) =
  channel_terms (p, q) + rows_comparison rowA rowB.
Proof. unfold rows_comparison. simpl. apply py_sum_cons. Qed.

Lemma square_nonneg (x : Z) : 0 <= x ^ 2.
Proof. rewrite Z.pow_2_r. apply Z.square_nonneg. Qed.

Lemma square_zero (x : Z) : x ^ 2 = 0 -> x = 0.
Proof. rewrite Z.pow_2_r. intros H. apply Z.mul_eq_0 in H. tauto. Qed.

Lemma channel_terms_nonneg (p q : Pixel) : 0 <= channel_terms (p, q).
Proof.
  unfold channel_terms.
  pose proof (square_nonneg (get_r p - get_r q)).
  pose proof (square_nonneg (get_g p - get_g q)).
  pose proof (square_nonneg (get_b p - get_b q)).
  lia.
Qed.

Lemma channel_terms_sym (p q : Pixel) : channel_terms (p, q) = channel_terms (q, p).
Proof. unfold channel_terms. rewrite !Z.pow_2_r. ring. Qed.

Lemma channel_terms_zero (p q : Pixel) : channel_terms (p, q) = 0 <-> p = q.
Proof.
  destruct p as [r1 g1 b1], q as [r2 g2 b2]. unfold channel_terms. simpl.
  split.
  - intros H.
    pose proof (square_nonneg (r1 - r2)).
    pose proof (square_nonneg (g1 - g2)).
    pose proof (square_nonneg (b1 - b2)).
    assert (r1 - r2 = 0) by (apply square_zero; lia).
    assert (g1 - g2 = 0) by (apply square_zero; lia).
    assert (b1 - b2 = 0) by (apply square_zero; lia).
    f_equal; lia.
  - intros [= -> -> ->]. rewrite !Z.sub_diag. reflexivity.
Qed.

Lemma rows_comparison_nonneg (rowA rowB : Row) : 0 <= rows_comparison rowA rowB.
Proof.
  revert rowB. induction rowA as [|p rowA IH]; intros [|q rowB];
    rewrite ?rows_comparison_nil_r, ?rows_comparison_nil_l; try lia.
  rewrite rows_comparison_cons.
  pose proof (channel_terms_nonneg p q). specialize (IH rowB). lia.
Qed.

Lemma rows_comparison_sym (rowA rowB : Row) :
  rows_comparison rowA rowB = rows_comparison rowB rowA.
Proof.
  revert rowB. induction rowA as [|p rowA IH]; intros [|q rowB];
    rewrite ?rows_comparison_nil_r, ?rows_comparison_nil_l; try reflexivity.
  rewrite !rows_comparison_cons, channel_terms_sym, IH. reflexivity.
Qed.

Lemma rows_comparison_zero_prefix (rowA rowB : Row) :
  rows_comparison rowA rowB = 0 <->
  take (length rowB) rowA = take (length rowA) rowB.
Proof.
  revert rowB. induction rowA as [|p rowA IH]; intros [|q rowB];
    rewrite ?rows_comparison_nil_r, ?rows_comparison_nil_l; simpl;
    try (split; reflexivity).
  rewrite rows_comparison_cons.
  pose proof (channel_terms_nonneg p q).
  pose proof (rows_comparison_nonneg rowA rowB).
  split.
  - intros Hz. assert (channel_terms (p, q) = 0) as Hc by lia.
    apply channel_terms_zero in Hc as ->. f_equal. apply IH. lia.
  - intros [= -> Ht]. apply IH in Ht.
    pose proof (proj2 (channel_terms_zero q q) eq_refl). lia.
Qed.

(** C7, as amended: the distance is symmetric for all rows, and for two rows
    of equal length it is zero exactly when the rows are pixel-identical. *)
Theorem rows_comparison_symmetric_zero (rowA rowB : Row) :
  rows_comparison rowA rowB = rows_comparison rowB rowA /\
  (length rowA = length rowB ->
   (rows_comparison rowA rowB = 0 <-> rowA = rowB)).
Proof.
  split; [apply rows_comparison_sym|].
  intros Hlen. rewrite rows_comparison_zero_prefix.
  rewrite <- Hlen at 1. rewrite Hlen at 2. rewrite !firstn_all. reflexivity.
Qed.

(** Two equal rows of two pixels. *)
Lemma rows_comparison_symmetric_zero_witness :
  rows_comparison [black; gray] [black; gray] =
    rows_comparison [black; gray] [black; gray] /\
  (rows_comparison [black; gray] [black; gray] = 0 <->
   [black; gray] = [black; gray]).
Proof.
  destruct (rows_comparison_symmetric_zero [black; gray] [black; gray])
    as [Hs Hz].
  split; [exact Hs | apply Hz; reflexivity].
Defined.

(** C7 as stated fails for rows of different length: a row and a proper
    extension of it are at distance zero without being identical. *)
Lemma rows_comparison_zero_not_identical :
  rows_comparison [black] [black; white] = 0 /\
  [black] <> [black; white].
Proof. split; [reflexivity | discriminate]. Qed.

Lemma truncated_distance_cons (p q : Pixel) (rowA rowB : Row) :
  truncated_distance (p :: rowA) (q :: rowB) =
  channel_terms (p, q) + truncated_distance rowA rowB.
Proof.
  unfold truncated_distance. simpl. f_equal.
  rewrite <- seq_shift, map_map. reflexivity.
Qed.

(** C9: on rows of any two lengths the distance is the sum of the per-channel
    squared differences over the first [min(len A, len B)] positions; the
    pixels beyond the shorter row play no part. *)
Theorem rows_comparison_paired_truncation (rowA rowB : Row) :
  rows_comparison rowA rowB = truncated_distance rowA rowB /\
  rows_comparison rowA rowB =
    rows_comparison (take (Nat.min (length rowA) (length rowB)) rowA)
                    (take (Nat.min (length rowA) (length rowB)) rowB).
Proof.
  revert rowB. induction rowA as [|p rowA IH]; intros [|q rowB];
    rewrite ?rows_comparison_nil_r, ?rows_comparison_nil_l; try (split; reflexivity).
  destruct (IH rowB) as [IH1 IH2]. simpl.
  rewrite truncated_distance_cons, !rows_comparison_cons, <- IH1, <- IH2.
  split; reflexivity.
Qed.

End RowDistance.


(** ** Loops and generators *)

Section Loops.

Context {A B S : Type}.

Lemma for_each_snoc (body : S -> A -> result S) (xs : list A) (x : A) (s : S) :
  for_each body (xs ++ [x]) s = let* s' := for_each body xs s in body s' x.
Proof.
  revert s. induction xs as [|y xs IH]; intros s; simpl.
  - by destruct (body s x).
  - destruct (body s y); simpl; [apply IH | done].
Qed.

Lemma for_each_ext (body body' : S -> A -> result S) (xs : list A) (s : S) :
  (forall s' x, x ∈ xs -> body s' x = body' s' x) ->
  for_each body xs s = for_each body' xs s.
Proof.
  revert s. induction xs as [|y xs IH]; intros s Hext; simpl; [done|].
  rewrite Hext by apply list_elem_of_here.
  destruct (body' s y); simpl; [|done].
  apply IH. intros s' x Hx. apply Hext. by apply list_elem_of_further.
Qed.

Lemma collect_total (f : A -> result B) (g : A -> B) (xs : list A) :
  (forall x, x ∈ xs -> f x = Ok (g x)) -> collect f xs = Ok (map g xs).
Proof.
  induction xs as [|y xs IH]; intros Hf; simpl; [done|].
  rewrite Hf by apply list_elem_of_here. simpl.
  rewrite IH; [done|]. intros x Hx. apply Hf. by apply list_elem_of_further.
Qed.

End Loops.

Lemma fold_min_le (xs : list Z) (a : Z) : fold_left Z.min xs a <= a.
Proof.
  revert a. induction xs as [|x xs IH]; intros a; simpl; [lia|].
  specialize (IH (Z.min a x)). lia.
Qed.

Lemma fold_min_lower (xs : list Z) (a x : Z) :
  x ∈ xs -> fold_left Z.min xs a <= x.
Proof.
  revert a. induction xs as [|y xs IH]; intros a Hx; simpl.
  - by apply elem_of_nil in Hx.
  - apply elem_of_cons in Hx as [->|Hx]; [|by apply IH].
    pose proof (fold_min_le xs (Z.min a y)). lia.
Qed.

Lemma fold_min_attained (xs : list Z) (a : Z) :
  fold_left Z.min xs a = a \/ fold_left Z.min xs a ∈ xs.
Proof.
  revert a. induction xs as [|y xs IH]; intros a; simpl; [by left|].
  destruct (IH (Z.min a y)) as [->|Hin].
  - destruct (Z.min_spec a y) as [[_ ->]|[_ ->]]; [by left|].
    right. apply list_elem_of_here.
  - right. by apply list_elem_of_further.
Qed.

(** [min] returns an element of its argument that no element is below. *)
Lemma py_min_spec (xs : list Z) :
  xs <> [] ->
  exists m, py_min xs = Ok m /\ m ∈ xs /\ forall x, x ∈ xs -> m <= x.
Proof.
  destruct xs as [|a xs]; [done|]. intros _. simpl. eexists. split; [done|].
  split.
  - destruct (fold_min_attained xs a) as [->|Hin].
    + apply list_elem_of_here.
    + by apply list_elem_of_further.
  - intros x [->|Hx]%elem_of_cons.
    + apply fold_min_le.
    + by apply fold_min_lower.
Qed.

(** ** First-best selection *)

Section FirstBest.

Context {A S : Type}.
Variable key : A -> result Z.
Variable improves : Z -> S -> bool.
Variable inject : Z -> S.
Variable init : S.
Variable better : Z -> Z -> bool.

Hypothesis improves_inject : forall k k', improves k (inject k') = better k k'.
Hypothesis better_asym : forall a b, better a b = true -> better b a = false.
Hypothesis better_chain :
  forall a b c, better a b = true -> better c b = false -> better a c = true.

Lemma better_irrefl (a : Z) : better a a = false.
Proof.
  destruct (better a a) eqn:E; [|done]. by rewrite (better_asym _ _ E) in E.
Qed.

Lemma first_best_scan (xs : list A) :
  (forall x, x ∈ xs -> exists k, key x = Ok k /\ improves k init = true) ->
  exists st, for_each (first_best_step key improves inject) xs (None, init) = Ok st
             /\ first_best_inv key inject init better xs st.
Proof.
  induction xs as [|x xs IH] using rev_ind; intros Hkeys.
  { exists (None, init). by repeat split. }
  destruct IH as ([best s] & Hrun & Hinv).
  { intros y Hy. apply Hkeys, elem_of_app. by left. }
  destruct (Hkeys x) as (k & Hk & Hinit).
  { apply elem_of_app. right. apply list_elem_of_here. }
  rewrite for_each_snoc, Hrun. unfold first_best_step at 1. simpl.
  rewrite Hk. simpl. unfold first_best_inv in Hinv. simpl in Hinv.
  destruct best as [y|].
  - destruct Hinv as (i & ky & -> & Hi & Hy & Hall).
    rewrite improves_inject. destruct (better k ky) eqn:Hb.
    + eexists. split; [done|]. exists (length xs), k. simpl.
      split; [done|]. split; [by apply list_lookup_middle|]. split; [done|].
      intros j x' k' Hj Hk'. apply lookup_app_Some in Hj as [Hj|[Hge Hj]].
      * destruct (Hall j x' k' Hj Hk') as [Hno _].
        pose proof (better_chain _ _ _ Hb Hno) as Hyes.
        split; [by apply better_asym | done].
      * apply list_lookup_singleton_Some in Hj as [Hj <-].
        rewrite Hk in Hk'. injection Hk' as <-.
        split; [apply better_irrefl | lia].
    + eexists. split; [done|]. exists i, ky. simpl.
      split; [done|]. split; [by apply lookup_app_l_Some|]. split; [done|].
      intros j x' k' Hj Hk'. apply lookup_app_Some in Hj as [Hj|[Hge Hj]].
      * exact (Hall j x' k' Hj Hk').
      * apply list_lookup_singleton_Some in Hj as [Hj <-].
        rewrite Hk in Hk'. injection Hk' as <-.
        split; [done|]. apply lookup_lt_Some in Hi. lia.
  - destruct Hinv as [-> ->]. rewrite Hinit.
    eexists. split; [done|]. exists 0%nat, k. simpl.
    split; [done|]. split; [done|]. split; [done|].
    intros j x' k' Hj Hk'.
    apply list_lookup_singleton_Some in Hj as [-> <-].
    rewrite Hk in Hk'. injection Hk' as <-.
    split; [apply better_irrefl | lia].
Qed.

(** On a non-empty list the loop ends with a selected element. *)
Lemma first_best_selected (xs : list A) :
  xs <> [] ->
  (forall x, x ∈ xs -> exists k, key x = Ok k /\ improves k init = true) ->
  exists i x k,
    for_each (first_best_step key improves inject) xs (None, init)
      = Ok (Some x, inject k) /\
    xs !! i = Some x /\ key x = Ok k /\
    forall j x' k', xs !! j = Some x' -> key x' = Ok k' ->
      better k' k = false /\ ((j < i)%nat -> better k k' = true).
Proof.
  intros Hne Hkeys.
  destruct (first_best_scan xs Hkeys) as ([[x|] s] & Hrun & Hinv);
    unfold first_best_inv in Hinv; simpl in Hinv.
  - destruct Hinv as (i & k & -> & Hrest). by exists i, x, k.
  - by destruct Hinv.
Qed.

End FirstBest.
(** ** The linked list *)

Section LinkedListFacts.

Local Open Scope nat_scope.

Lemma represents_init (s : Strip) : represents (LinkedList_init s) [s].
Proof.
  repeat split; intros; destruct i as [|i]; simpl in *; simplify_eq; done.
Qed.

Lemma represents_prepend (l : LinkedList) (xs : list Strip) (s : Strip) :
  represents l xs -> represents (prepend l s) (s :: xs).
Proof.
  intros (Hlen & Hhead & Hnodes). unfold represents, prepend. simpl.
  rewrite length_alter, length_app, Hlen. simpl.
  split; [lia|]. split; [lia|].
  intros i nd Hi. rewrite reverse_cons.
  assert (exists nd0, (nodes l ++ [mkNode s None (Some (head l))]) !! i = Some nd0
                      /\ strip nd = strip nd0 /\ next nd = next nd0)
    as (nd0 & Hi0 & -> & ->).
  { destruct (decide (head l = i)) as [<-|Hne].
    - rewrite list_lookup_alter_eq in Hi.
      destruct (_ !! head l) as [nd0|]; simpl in Hi; [|discriminate].
      injection Hi as <-. by exists nd0.
    - rewrite list_lookup_alter_ne in Hi by exact Hne. eauto. }
  apply lookup_app_Some in Hi0 as [Hi0|[Hge Hi0]].
  - destruct (Hnodes i nd0 Hi0) as [Hs Hn]. split; [|done].
    by apply lookup_app_l_Some.
  - apply list_lookup_singleton_Some in Hi0 as [Hi0 <-]. simpl.
    assert (i = length xs) as -> by lia.
    split.
    + rewrite lookup_app_r by (rewrite length_reverse; lia).
      by rewrite length_reverse, Nat.sub_diag.
    + destruct (length xs); [lia|]. f_equal. lia.
Qed.

Lemma to_list_walk_done (fuel : nat) (ns : list Node) (acc : list Strip) :
  to_list_walk fuel ns None acc = Some acc.
Proof. by destruct fuel. Qed.

Lemma to_list_walk_spec (l : LinkedList) (xs : list Strip) :
  represents l xs ->
  forall i fuel acc, i < length xs -> i < fuel ->
    to_list_walk fuel (nodes l) (Some i) acc =
    Some (acc ++ reverse (take (S i) (reverse xs))).
Proof.
  intros (Hlen & Hhead & Hnodes) i.
  induction i as [|i IH]; intros fuel acc Hi Hfuel;
    (destruct fuel as [|fuel]; [lia|]); simpl.
  - destruct (lookup_lt_is_Some_2 (nodes l) 0) as [nd Hnd]; [lia|].
    rewrite Hnd. destruct (Hnodes 0 nd Hnd) as [Hs ->]. simpl.
    rewrite (take_S_r _ _ _ Hs), to_list_walk_done. simpl.
    by rewrite reverse_singleton.
  - destruct (lookup_lt_is_Some_2 (nodes l) (S i)) as [nd Hnd]; [lia|].
    rewrite Hnd. destruct (Hnodes (S i) nd Hnd) as [Hs ->].
    rewrite IH by lia.
    rewrite (take_S_r _ (S i) _ Hs), reverse_snoc, <- app_assoc. done.
Qed.

Lemma represents_to_list (l : LinkedList) (xs : list Strip) :
  represents l xs -> to_list l = Some xs.
Proof.
  intros Hr. pose proof Hr as (Hlen & Hhead & _). unfold to_list.
  rewrite (to_list_walk_spec l xs Hr) by lia.
  rewrite Hhead, take_ge by (rewrite length_reverse; lia).
  by rewrite reverse_involutive.
Qed.

Lemma represents_head_strip (l : LinkedList) (xs : list Strip) :
  represents l xs -> head_strip l = xs !! 0 /\ is_Some (xs !! 0).
Proof.
  intros (Hlen & Hhead & Hnodes). unfold head_strip.
  destruct (lookup_lt_is_Some_2 (nodes l) (head l)) as [nd Hnd]; [lia|].
  rewrite Hnd. destruct (Hnodes _ _ Hnd) as [Hs _]. simpl.
  rewrite reverse_lookup in Hs by lia.
  replace (length xs - S (head l)) with 0 in Hs by lia.
  rewrite Hs. eauto.
Qed.

End LinkedListFacts.

(** ** The two selectors *)

Section Selectors.

Variable store : Strip -> Image.

Lemma top_row_Ok (s : Strip) :
  has_rows (store s) ->
  exists t, top_row store s = Ok t /\ first_row_of store s t.
Proof.
  unfold has_rows, top_row, first_row_of, subscript.
  destruct (pixels (store s)) as [|t rows]; [done|]. intros _. by exists t.
Qed.

Lemma bottom_row_Ok (s : Strip) :
  has_rows (store s) ->
  exists b, bottom_row store s = Ok b /\ last_row_of store s b.
Proof.
  unfold has_rows, bottom_row, last_row_of, subscript_last.
  intros [b Hb]%last_is_Some. rewrite Hb. by exists b.
Qed.

Lemma first_row_of_inj (s : Strip) (t t' : Row) :
  first_row_of store s t -> first_row_of store s t' -> t = t'.
Proof. unfold first_row_of. congruence. Qed.

Lemma last_row_of_inj (s : Strip) (b b' : Row) :
  last_row_of store s b -> last_row_of store s b' -> b = b'.
Proof. unfold last_row_of. congruence. Qed.

(** *** [find_most_similar_strip_for_upwards] *)

Lemma upwards_step_shape (t : Row) (st : option Strip * distance) (c : Strip) :
  upwards_step store t st c = first_best_step (upward_key store t) below Finite st c.
Proof.
  unfold upwards_step, first_best_step, upward_key.
  by destruct (bottom_row store c).
Qed.

Lemma upward_key_Ok (cur c : Strip) (t : Row) :
  first_row_of store cur t -> has_rows (store c) ->
  exists d, upward_key store t c = Ok d /\ upward_distance store cur c d.
Proof.
  intros Ht (b & Hb & Hlast)%bottom_row_Ok. unfold upward_key. rewrite Hb.
  eexists. split; [done|]. by exists t, b.
Qed.

Lemma upward_distance_key (cur c : Strip) (t : Row) (d : Z) :
  first_row_of store cur t -> upward_distance store cur c d ->
  upward_key store t c = Ok d.
Proof.
  intros Ht (t' & b & Ht' & Hb & ->).
  rewrite (first_row_of_inj _ _ _ Ht Ht').
  unfold upward_key, bottom_row, subscript_last.
  unfold last_row_of in Hb. by rewrite Hb.
Qed.

Lemma ltb_asym (a b : Z) : (a <? b) = true -> (b <? a) = false.
Proof. lia. Qed.

Lemma ltb_chain (a b c : Z) : (a <? b) = true -> (c <? b) = false -> (a <? c) = true.
Proof. lia. Qed.

Lemma gtb_chain (a b c : Z) : (b <? a) = true -> (b <? c) = false -> (c <? a) = true.
Proof. lia. Qed.

(** The loop of the chainer on a non-empty pool, in terms of the scores. *)
Lemma upwards_scan (pool : list Strip) (t : Row) :
  pool <> [] ->
  Forall (fun c => has_rows (store c)) pool ->
  exists i c d,
    for_each (upwards_step store t) pool (None, Infinity)
      = Ok (Some c, Finite d) /\
    pool !! i = Some c /\ upward_key store t c = Ok d /\
    forall j c' d', pool !! j = Some c' -> upward_key store t c' = Ok d' ->
      (d' <? d) = false /\ ((j < i)%nat -> (d <? d') = true).
Proof.
  intros Hne Hrows.
  rewrite (for_each_ext _ (first_best_step (upward_key store t) below Finite))
    by (intros; apply upwards_step_shape).
  apply (first_best_selected (upward_key store t) below Finite Infinity Z.ltb
           (fun _ _ => eq_refl) ltb_asym ltb_chain pool Hne).
  intros x Hx. rewrite Forall_forall in Hrows.
  destruct (bottom_row_Ok x (Hrows x Hx)) as (b & Hb & _).
  unfold upward_key. rewrite Hb. by eexists.
Qed.

(** On a non-empty pool the chainer returns one of the candidates. *)
Lemma find_most_similar_member (cur : Strip) (pool : list Strip) :
  pool <> [] ->
  has_rows (store cur) ->
  Forall (fun c => has_rows (store c)) pool ->
  exists c, c ∈ pool /\
    find_most_similar_strip_for_upwards store cur pool = Ok (Some c).
Proof.
  intros Hne (t & Htop & _)%top_row_Ok Hrows.
  destruct (upwards_scan pool t Hne Hrows) as (i & c & d & Hrun & Hi & _).
  exists c. split; [by eapply list_elem_of_lookup_2|].
  unfold find_most_similar_strip_for_upwards. rewrite Htop. simpl.
  by rewrite Hrun.
Qed.

(** C4: on a non-empty pool the chainer returns the candidate whose last row
    is nearest to the first row of the current strip; no candidate is strictly
    nearer, and every candidate enumerated before it is strictly farther, so
    on an exact tie the earliest candidate is kept.  The strips involved have
    at least one row, so that [pixels[0]] and [pixels[-1]] exist. *)
Theorem find_most_similar_minimum (cur : Strip) (pool : list Strip) :
  pool <> [] ->
  has_rows (store cur) ->
  Forall (fun c => has_rows (store c)) pool ->
  exists i c d,
    find_most_similar_strip_for_upwards store cur pool = Ok (Some c) /\
    pool !! i = Some c /\
    upward_distance store cur c d /\
    forall j c' d', pool !! j = Some c' -> upward_distance store cur c' d' ->
      d <= d' /\ ((j < i)%nat -> d < d').
Proof.
  intros Hne (t & Htop & Ht)%top_row_Ok Hrows.
  destruct (upwards_scan pool t Hne Hrows)
    as (i & c & d & Hrun & Hi & Hd & Hall).
  exists i, c, d. unfold find_most_similar_strip_for_upwards.
  rewrite Htop. simpl. rewrite Hrun. simpl.
  split; [done|]. split; [done|]. split.
  - rewrite Forall_forall in Hrows.
    destruct (upward_key_Ok cur c t Ht) as (d0 & Hd0 & Hdist).
    { apply Hrows. by eapply list_elem_of_lookup_2. }
    rewrite Hd in Hd0. by injection Hd0 as <-.
  - intros j c' d' Hj Hd'.
    destruct (Hall j c' d' Hj (upward_distance_key _ _ _ _ Ht Hd')) as [H1 H2].
    split; [lia|]. intros Hlt. specialize (H2 Hlt). lia.
Qed.

(** C6: with an empty pool the chainer returns the "no match" value [None]
    and raises nothing, for every current strip that has a first row (the one
    subscript evaluated before the loop). *)
Theorem find_most_similar_empty_pool (cur : Strip) :
  has_rows (store cur) ->
  find_most_similar_strip_for_upwards store cur [] = Ok None.
Proof.
  intros (t & Htop & _)%top_row_Ok.
  unfold find_most_similar_strip_for_upwards. by rewrite Htop.
Qed.

(** *** [find_bottom_strip] *)

Lemma find_bottom_step_shape (strips : list Strip) (st : option Strip * Z)
    (c : Strip) :
  find_bottom_step store strips st c =
  first_best_step (best_match_score store strips) (fun k w => w <? k) id st c.
Proof. reflexivity. Qed.

Lemma best_match_score_spec (strips : list Strip) (c : Strip) :
  Forall (fun s => has_rows (store s)) strips ->
  c ∈ strips ->
  (exists o, o ∈ strips /\ o <> c) ->
  exists m, best_match_score store strips c = Ok m /\
            best_match store strips c m /\ 0 <= m.
Proof.
  rewrite Forall_forall. intros Hrows Hc (o & Ho & Hoc).
  destruct (bottom_row_Ok c (Hrows c Hc)) as (b & Hb & Hlast).
  unfold best_match_score. rewrite Hb. simpl.
  set (others := filter (fun other => other <> c) strips).
  set (g := fun other => rows_comparison b (default [] (pixels (store other) !! 0%nat))).
  rewrite (collect_total _ g).
  2:{ intros x [_ Hx]%list_elem_of_filter.
      destruct (top_row_Ok x (Hrows x Hx)) as (t & Ht & Hfirst).
      rewrite Ht. unfold g. unfold first_row_of in Hfirst.
      by rewrite Hfirst. }
  simpl.
  destruct (py_min_spec (map g others)) as (m & Hm & Hin & Hleast).
  { assert (o ∈ others) as Hin by (by apply list_elem_of_filter).
    intros Hnil%map_eq_nil. rewrite Hnil in Hin. by apply elem_of_nil in Hin. }
  exists m. split; [done|]. split.
  - exists b. split; [done|]. split.
    + apply list_elem_of_fmap in Hin as (o' & -> & [Hne Ho']%list_elem_of_filter).
      destruct (top_row_Ok o' (Hrows o' Ho')) as (t & _ & Hfirst).
      exists o', t. repeat split; try done.
      unfold g. unfold first_row_of in Hfirst. by rewrite Hfirst.
    + intros o' t Ho' Hne Hfirst.
      replace (rows_comparison b t) with (g o').
      * apply Hleast, list_elem_of_fmap. exists o'. split; [done|].
        by apply list_elem_of_filter.
      * unfold g. unfold first_row_of in Hfirst. by rewrite Hfirst.
  - apply list_elem_of_fmap in Hin as (o' & -> & _). apply rows_comparison_nonneg.
Qed.

Lemma best_match_unique (strips : list Strip) (c : Strip) (m m' : Z) :
  best_match store strips c m -> best_match store strips c m' -> m = m'.
Proof.
  intros (b & Hb & (o & t & Ho & Hoc & Ht & Hm) & Hleast)
         (b' & Hb' & (o' & t' & Ho' & Hoc' & Ht' & Hm') & Hleast').
  rewrite <- (last_row_of_inj _ _ _ Hb Hb') in *.
  specialize (Hleast o' t' Ho' Hoc' Ht').
  specialize (Hleast' o t Ho Hoc Ht). lia.
Qed.

(** Every strip of a duplicate-free list of two or more has another one. *)
Lemma NoDup_other (strips : list Strip) (c : Strip) :
  (2 <= length strips)%nat -> NoDup strips ->
  exists o, o ∈ strips /\ o <> c.
Proof.
  destruct strips as [|x [|y strips]]; simpl; try lia. intros _ Hnd.
  apply NoDup_cons in Hnd as [Hx _].
  destruct (decide (x = c)) as [->|Hxc].
  - exists y. split; [apply list_elem_of_further, list_elem_of_here|].
    intros ->. apply Hx, list_elem_of_here.
  - exists x. split; [apply list_elem_of_here | done].
Qed.

(** The loop of the selector, in terms of the scores. *)
Lemma find_bottom_scan (strips : list Strip) :
  strips <> [] ->
  Forall (fun s => has_rows (store s)) strips ->
  (forall c, c ∈ strips -> exists o, o ∈ strips /\ o <> c) ->
  exists i best m,
    for_each (find_bottom_step store strips) strips (None, -1)
      = Ok (Some best, m) /\
    strips !! i = Some best /\ best_match_score store strips best = Ok m /\
    forall j c k, strips !! j = Some c ->
      best_match_score store strips c = Ok k ->
      (m <? k) = false /\ ((j < i)%nat -> (k <? m) = true).
Proof.
  intros Hne Hrows Hother.
  rewrite (for_each_ext _ (first_best_step (best_match_score store strips)
                             (fun k w => w <? k) id))
    by (intros; apply find_bottom_step_shape).
  apply (first_best_selected (best_match_score store strips)
           (fun k w => w <? k) id (-1) (fun a b => b <? a)
           (fun _ _ => eq_refl) (fun a b => ltb_asym b a) gtb_chain
           strips Hne).
  intros c Hc.
  destruct (best_match_score_spec strips c Hrows Hc (Hother c Hc))
    as (k & Hk & _ & Hpos).
  exists k. split; [done|]. lia.
Qed.

(** On two or more distinct strips the selector returns one of them. *)
Lemma find_bottom_strip_member (strips : list Strip) :
  (2 <= length strips)%nat ->
  NoDup strips ->
  Forall (fun s => has_rows (store s)) strips ->
  exists b, b ∈ strips /\ find_bottom_strip store strips = Ok (Some b).
Proof.
  intros Hlen Hnd Hrows.
  destruct (find_bottom_scan strips) as (i & b & m & Hrun & Hi & _); [|done| |].
  { intros ->. simpl in Hlen. lia. }
  { intros c _. by apply NoDup_other. }
  exists b. split; [by eapply list_elem_of_lookup_2|].
  unfold find_bottom_strip. by rewrite Hrun.
Qed.

(** C3: on a list of two or more strips the selector returns the strip whose
    best match score is maximal, and every strip met before it in iteration
    order has a strictly smaller best match score, so among the strips tied
    for the maximum the first one is returned.  The strips are distinct
    objects with at least one row each. *)
Theorem find_bottom_strip_maximin (strips : list Strip) :
  (2 <= length strips)%nat ->
  NoDup strips ->
  Forall (fun s => has_rows (store s)) strips ->
  exists i best m,
    find_bottom_strip store strips = Ok (Some best) /\
    strips !! i = Some best /\
    best_match store strips best m /\
    forall j c m', strips !! j = Some c -> best_match store strips c m' ->
      m' <= m /\ ((j < i)%nat -> m' < m).
Proof.
  intros Hlen Hnd Hrows.
  assert (forall c, c ∈ strips -> exists o, o ∈ strips /\ o <> c) as Hother
    by (intros c _; by apply NoDup_other).
  destruct (find_bottom_scan strips) as (i & best & m & Hrun & Hi & Hm & Hall);
    [|done|done|].
  { intros ->. simpl in Hlen. lia. }
  assert (forall j c, strips !! j = Some c ->
            exists k, best_match_score store strips c = Ok k /\
                      best_match store strips c k) as Hscore.
  { intros j c Hj. apply list_elem_of_lookup_2 in Hj.
    destruct (best_match_score_spec strips c Hrows Hj (Hother c Hj))
      as (k & Hk & Hbm & _). by exists k. }
  exists i, best, m. unfold find_bottom_strip. rewrite Hrun. simpl.
  split; [done|]. split; [done|]. split.
  - destruct (Hscore i best Hi) as (k & Hk & Hbm).
    rewrite Hm in Hk. by injection Hk as <-.
  - intros j c m' Hj Hbm'.
    destruct (Hscore j c Hj) as (k & Hk & Hbm).
    rewrite (best_match_unique _ _ _ _ Hbm' Hbm).
    destruct (Hall j c k Hj Hk) as [H1 H2].
    split; [lia|]. intros Hlt. specialize (H2 Hlt). lia.
Qed.

End Selectors.

(** ** The ordered sequence builder *)

Section Builder.

Local Open Scope nat_scope.

Variable store : Strip -> Image.

Lemma list_remove_Ok (x : Strip) (xs xs' : list Strip) :
  list_remove x xs = Ok xs' -> xs ≡ₚ x :: xs' /\ xs' `sublist_of` xs.
Proof.
  revert xs'. induction xs as [|y xs IH]; intros xs'; simpl; [done|].
  destruct (decide (y = x)) as [->|Hne].
  - intros [= ->]. split; [done|]. by apply sublist_cons.
  - destruct (list_remove x xs) as [r|e]; simpl; [|done].
    intros [= <-]. destruct (IH r eq_refl) as [Hp Hs]. split.
    + rewrite Hp. apply Permutation_swap.
    + by apply sublist_skip.
Qed.

Lemma list_remove_elem (x : Strip) (xs : list Strip) :
  x ∈ xs -> exists xs', list_remove x xs = Ok xs'.
Proof.
  induction xs as [|y xs IH]; simpl.
  - by intros ?%elem_of_nil.
  - intros Hx. destruct (decide (y = x)) as [->|Hne]; [by eexists|].
    apply elem_of_cons in Hx as [->|Hx]; [done|].
    destruct (IH Hx) as [r ->]. by eexists.
Qed.

Lemma list_remove_length (x : Strip) (xs xs' : list Strip) :
  list_remove x xs = Ok xs' -> length xs = S (length xs').
Proof. intros [Hp _]%list_remove_Ok. by rewrite Hp. Qed.

(** The loop never runs out of fuel when given the length of the pool. *)
Lemma chain_upwards_total (fuel : nat) (linked : LinkedList)
    (xs pool : list Strip) :
  represents linked xs -> length pool <= fuel ->
  exists r, chain_upwards store fuel linked pool = Some r.
Proof.
  revert linked xs pool.
  induction fuel as [|fuel IH]; intros linked xs pool Hrep Hfuel.
  { destruct pool; simpl in *; [by eexists | lia]. }
  destruct pool as [|p pool']; [by eexists|].
  cbn [chain_upwards].
  destruct (represents_head_strip _ _ Hrep) as [-> [cur ->]].
  destruct (find_most_similar_strip_for_upwards store cur (p :: pool'))
    as [[c|]|e]; try by eexists.
  destruct (list_remove c (p :: pool')) as [pool''|e] eqn:Hrm; [|by eexists].
  apply (IH _ (c :: xs)); [by apply represents_prepend|].
  apply list_remove_length in Hrm. simpl in *. lia.
Qed.

(** Whatever the loop returns, the strips are only moved from the pool to the
    front of the sequence. *)
Lemma chain_upwards_moves (fuel : nat) (linked linked' : LinkedList)
    (xs pool rest : list Strip) :
  represents linked xs ->
  chain_upwards store fuel linked pool = Some (Ok (linked', rest)) ->
  exists xs', represents linked' xs' /\ xs' ++ rest ≡ₚ xs ++ pool /\
              rest `sublist_of` pool.
Proof.
  revert linked xs pool.
  induction fuel as [|fuel IH]; intros linked xs pool Hrep Hrun.
  { destruct pool; simpl in Hrun; [|done]. injection Hrun as <- <-.
    by exists xs. }
  destruct pool as [|p pool'].
  { simpl in Hrun. injection Hrun as <- <-. by exists xs. }
  cbn [chain_upwards] in Hrun.
  destruct (head_strip linked) as [cur|]; [|done].
  destruct (find_most_similar_strip_for_upwards store cur (p :: pool'))
    as [[c|]|e]; [| |done].
  - destruct (list_remove c (p :: pool')) as [pool''|e] eqn:Hrm; [|done].
    apply list_remove_Ok in Hrm as [Hperm Hsub].
    destruct (IH _ (c :: xs) _ (represents_prepend _ _ c Hrep) Hrun)
      as (xs' & Hrep' & Hperm' & Hsub').
    exists xs'. split; [done|]. split.
    + rewrite Hperm', Hperm. simpl. apply Permutation_middle.
    + by etrans.
  - injection Hrun as <- <-. by exists xs.
Qed.

(** With every strip holding at least one row, the loop empties the pool. *)
Lemma chain_upwards_exhausts (fuel : nat) (linked : LinkedList)
    (xs pool : list Strip) :
  represents linked xs -> length pool <= fuel ->
  Forall (fun s => has_rows (store s)) (xs ++ pool) ->
  exists linked', chain_upwards store fuel linked pool = Some (Ok (linked', [])).
Proof.
  revert linked xs pool.
  induction fuel as [|fuel IH]; intros linked xs pool Hrep Hfuel Hrows.
  { destruct pool; simpl in *; [by eexists | lia]. }
  destruct pool as [|p pool']; [by eexists|].
  cbn [chain_upwards].
  destruct (represents_head_strip _ _ Hrep) as [-> [cur Hcur]]. rewrite Hcur.
  apply Forall_app in Hrows as [Hxs Hpool].
  destruct (find_most_similar_member store cur (p :: pool'))
    as (c & Hi & ->); [done| |done|].
  { rewrite Forall_forall in Hxs. by eapply Hxs, list_elem_of_lookup_2. }
  destruct (list_remove_elem c _ Hi) as [pool'' Hrm]. rewrite Hrm.
  pose proof (list_remove_Ok _ _ _ Hrm) as [Hperm _].
  apply (IH _ (c :: xs)); [by apply represents_prepend| |].
  - apply list_remove_length in Hrm. simpl in *. lia.
  - change ((c :: xs) ++ pool'') with (c :: (xs ++ pool'')).
    rewrite Permutation_middle, <- Hperm. by apply Forall_app.
Qed.

(** The builder always terminates: the bound on the loop is never reached. *)
Lemma build_from_bottom_total (image_strips : list Strip) :
  exists r, build_from_bottom store image_strips = Some r.
Proof.
  unfold build_from_bottom.
  destruct (find_bottom_strip store image_strips) as [[b|]|e]; try by eexists.
  destruct (list_remove b image_strips) as [remaining|e]; [|by eexists].
  destruct (chain_upwards_total (length remaining) (LinkedList_init b) [b]
              remaining (represents_init b) (le_n _)) as [r Hr].
  rewrite Hr. destruct r as [[linked rest]|e]; [|by eexists].
  destruct (chain_upwards_moves _ _ _ _ _ _ (represents_init b) Hr)
    as (xs' & Hrep & _).
  rewrite (represents_to_list _ _ Hrep). by eexists.
Qed.

(** Whenever the builder returns, the returned list and what is left in the
    caller's list together hold exactly the input strips. *)
Lemma build_from_bottom_partition (image_strips out rest : list Strip) :
  build_from_bottom store image_strips = Some (Ok (out, rest)) ->
  out ++ rest ≡ₚ image_strips /\ rest `sublist_of` image_strips.
Proof.
  unfold build_from_bottom.
  destruct (find_bottom_strip store image_strips) as [[b|]|e]; try done.
  destruct (list_remove b image_strips) as [remaining|e] eqn:Hrm; [|done].
  destruct (chain_upwards store _ _ remaining) as [[[linked rest']|e]|] eqn:Hr;
    try done.
  destruct (chain_upwards_moves _ _ _ _ _ _ (represents_init b) Hr)
    as (xs' & Hrep & Hperm & Hsub).
  rewrite (represents_to_list _ _ Hrep). intros [= <- <-].
  apply list_remove_Ok in Hrm as [Hperm' Hsub'].
  split; [by rewrite Hperm, Hperm' | by etrans].
Qed.

(** On two or more distinct strips that have rows, the builder returns and
    leaves nothing behind. *)
Lemma build_from_bottom_complete (image_strips : list Strip) :
  2 <= length image_strips ->
  NoDup image_strips ->
  Forall (fun s => has_rows (store s)) image_strips ->
  exists out, build_from_bottom store image_strips = Some (Ok (out, [])) /\
              out ≡ₚ image_strips.
Proof.
  intros Hlen Hnd Hrows.
  destruct (find_bottom_strip_member store image_strips Hlen Hnd Hrows)
    as (b & Hi & Hfind).
  destruct (list_remove_elem b _ Hi) as [remaining Hrm].
  pose proof (list_remove_Ok _ _ _ Hrm) as [Hperm _].
  destruct (chain_upwards_exhausts (length remaining) (LinkedList_init b) [b]
              remaining (represents_init b) (le_n _)) as [linked Hrun].
  { simpl. by rewrite <- Hperm. }
  destruct (chain_upwards_moves _ _ _ _ _ _ (represents_init b) Hrun)
    as (out & Hrep & Hperm' & _).
  exists out. unfold build_from_bottom.
  rewrite Hfind, Hrm, Hrun, (represents_to_list _ _ Hrep).
  split; [done|]. rewrite app_nil_r in Hperm'. by rewrite Hperm', Hperm.
Qed.

(** C1: on two or more strips (distinct objects, at least one row each) the
    builder returns a list in which every input strip occurs exactly once, and
    it leaves through the loop guard with the pool empty: the chainer returns
    a candidate of the pool whenever the pool is non-empty, so the early exit
    is never taken. *)
Theorem build_from_bottom_permutation (image_strips : list Strip) :
  2 <= length image_strips ->
  NoDup image_strips ->
  Forall (fun s => has_rows (store s)) image_strips ->
  (exists out,
     build_from_bottom store image_strips = Some (Ok (out, [])) /\
     out ≡ₚ image_strips /\ NoDup out) /\
  (forall cur pool,
     has_rows (store cur) -> Forall (fun s => has_rows (store s)) pool ->
     pool <> [] ->
     exists c, c ∈ pool /\
       find_most_similar_strip_for_upwards store cur pool = Ok (Some c)).
Proof.
  intros Hlen Hnd Hrows. split.
  - destruct (build_from_bottom_complete _ Hlen Hnd Hrows) as (out & Hrun & Hperm).
    exists out. split; [done|]. split; [done|]. by rewrite Hperm.
  - intros cur pool Hcur Hpool Hne.
    by apply find_most_similar_member.
Qed.

(** C10: the builder consumes its argument.  Whenever it returns, the strips
    of the returned list are exactly those missing from the caller's list,
    which keeps the others in their order; and on two or more strips every
    strip is placed, so the caller's list is left empty. *)
Theorem build_from_bottom_consumes_input (image_strips : list Strip) :
  (forall out rest,
     build_from_bottom store image_strips = Some (Ok (out, rest)) ->
     out ++ rest ≡ₚ image_strips /\ rest `sublist_of` image_strips /\
     (NoDup image_strips -> forall s, s ∈ out -> s ∉ rest) /\
     (length out = length image_strips -> rest = [])) /\
  (2 <= length image_strips -> NoDup image_strips ->
   Forall (fun s => has_rows (store s)) image_strips ->
   exists out, build_from_bottom store image_strips = Some (Ok (out, []))).
Proof.
  split.
  - intros out rest Hrun.
    destruct (build_from_bottom_partition _ _ _ Hrun) as [Hperm Hsub].
    split; [done|]. split; [done|]. split.
    + intros Hnd s Hout Hrest. rewrite <- Hperm in Hnd.
      apply NoDup_app in Hnd as (_ & Hdisj & _). by apply (Hdisj s).
    + intros Hlen. apply Permutation_length in Hperm.
      rewrite length_app in Hperm. apply nil_length_inv. lia.
  - intros Hlen Hnd Hrows.
    destruct (build_from_bottom_complete _ Hlen Hnd Hrows) as (out & Hrun & _).
    by exists out.
Qed.

End Builder.

(** ** The vertical compositor *)

Section Compositor.

Local Open Scope nat_scope.

Variable store : Strip -> Image.

(** Overwriting a list front to back: after [k] cells the first [k] come from
    the source and the others are still the destination's. *)
Lemma overwrite_step {A : Type} (src dst : list A) (k : nat) (x : A) :
  src !! k = Some x -> k < length dst ->
  <[k := x]> (take k src ++ drop k dst) = take (S k) src ++ drop (S k) dst.
Proof.
  intros Hsrc Hdst.
  pose proof (lookup_lt_Some _ _ _ Hsrc) as Hk.
  destruct (lookup_lt_is_Some_2 dst k Hdst) as [d Hd].
  rewrite insert_app_r_alt by (rewrite length_take; lia).
  rewrite length_take, Nat.min_l, Nat.sub_diag by lia.
  rewrite (drop_S _ _ _ Hd). simpl.
  rewrite (take_S_r _ _ _ Hsrc), <- app_assoc. done.
Qed.

Lemma overwrite_all {A : Type} (src dst : list A) :
  length src = length dst ->
  take (length src) src ++ drop (length src) dst = src.
Proof.
  intros Hlen. rewrite firstn_all, drop_ge by lia. apply app_nil_r.
Qed.

Lemma set_pixel_Ok (img : Image) (row col : nat) (p : Pixel) (r : list Pixel) :
  pixels img !! row = Some r -> col < length r ->
  set_pixel img row col p =
  Ok (mkImage (get_width img) (get_height img)
              (<[row := <[col := p]> r]> (pixels img))).
Proof.
  intros Hr Hc. unfold set_pixel, subscript. rewrite Hr. simpl.
  by rewrite decide_True.
Qed.

Lemma get_pixel_Ok (img : Image) (row col : nat) (p : Pixel) (r : list Pixel) :
  pixels img !! row = Some r -> r !! col = Some p ->
  get_pixel img row col = Ok p.
Proof.
  intros Hr Hc. unfold get_pixel, subscript. rewrite Hr. simpl. by rewrite Hc.
Qed.

Lemma middle_lookup {A : Type} (xs ys zs : list A) (k : nat) :
  k < length ys -> (xs ++ ys ++ zs) !! (length xs + k) = ys !! k.
Proof.
  intros Hk. rewrite lookup_app_r by lia.
  replace (length xs + k - length xs) with k by lia.
  by rewrite lookup_app_l.
Qed.

Lemma middle_insert {A : Type} (xs ys zs : list A) (k : nat) (y : A) :
  k < length ys ->
  <[length xs + k := y]> (xs ++ ys ++ zs) = xs ++ <[k := y]> ys ++ zs.
Proof.
  intros Hk. rewrite insert_app_r. f_equal. by rewrite insert_app_l.
Qed.

(** The column loop on row [k] of the source: after [j] columns. *)
Lemma copy_columns (src : Image) (W H k j : nat)
    (above band below_ : list (list Pixel)) (srow drow : list Pixel) :
  pixels src !! k = Some srow ->
  band !! k = Some drow ->
  length srow <= length drow ->
  j <= length srow ->
  for_each
    (fun img' col =>
       let* p := get_pixel src k col in
       set_pixel img' (length above + k) col p)
    (seq 0 j) (mkImage W H (above ++ band ++ below_)) =
  Ok (mkImage W H
        (above ++ <[k := take j srow ++ drop j drow]> band ++ below_)).
Proof.
  intros Hsrow Hdrow Hlen.
  pose proof (lookup_lt_Some _ _ _ Hdrow) as Hk.
  induction j as [|j IH]; intros Hj.
  { simpl. rewrite drop_0, list_insert_id; done. }
  rewrite seq_S, for_each_snoc, IH by lia. simpl.
  destruct (lookup_lt_is_Some_2 srow j) as [p Hp]; [lia|].
  rewrite (get_pixel_Ok _ _ _ _ _ Hsrow Hp). simpl.
  rewrite (set_pixel_Ok _ _ _ _ (take j srow ++ drop j drow)); simpl.
  - rewrite middle_insert by (by rewrite length_insert).
    rewrite list_insert_insert_eq, overwrite_step by (done || lia). done.
  - rewrite middle_lookup by (by rewrite length_insert).
    by apply list_lookup_insert_eq.
  - rewrite length_app, length_take, length_drop. lia.
Qed.

(** The row loop for one strip: after [k] rows. *)
Lemma copy_rows (src : Image) (W H k : nat)
    (above band below_ : list (list Pixel)) :
  well_formed src ->
  length band = get_height src ->
  Forall (fun row => length row = get_width src) band ->
  k <= get_height src ->
  for_each
    (fun img row =>
       for_each
         (fun img' col =>
            let* p := get_pixel src row col in
            set_pixel img' (length above + row) col p)
         (seq 0 (get_width src)) img)
    (seq 0 k) (mkImage W H (above ++ band ++ below_)) =
  Ok (mkImage W H (above ++ (take k (pixels src) ++ drop k band) ++ below_)).
Proof.
  intros [Hh Hw] Hband Hrows.
  induction k as [|k IH]; intros Hk.
  { simpl. by rewrite drop_0. }
  rewrite seq_S, for_each_snoc, IH by lia. simpl.
  destruct (lookup_lt_is_Some_2 (pixels src) k) as [srow Hsrow]; [lia|].
  destruct (lookup_lt_is_Some_2 band k) as [drow Hdrow]; [lia|].
  pose proof (Forall_lookup_1 _ _ _ _ Hw Hsrow) as Hls.
  pose proof (Forall_lookup_1 _ _ _ _ Hrows Hdrow) as Hld. simpl in Hls, Hld.
  rewrite (copy_columns src W H k (get_width src) above _ below_ srow drow);
    try (done || lia).
  - rewrite <- Hls at 1 2.
    rewrite overwrite_all, overwrite_step by (done || lia). done.
  - rewrite lookup_app_r by (rewrite length_take; lia).
    rewrite length_take, Nat.min_l, Nat.sub_diag, lookup_drop, Nat.add_0_r by lia.
    done.
Qed.

Lemma copy_strip_spec (s : Strip) (W H : nat)
    (above band below_ : list (list Pixel)) :
  well_formed (store s) ->
  length band = get_height (store s) ->
  Forall (fun row => length row = get_width (store s)) band ->
  copy_strip store s (length above) (mkImage W H (above ++ band ++ below_)) =
  Ok (mkImage W H (above ++ pixels (store s) ++ below_)).
Proof.
  intros Hwf Hband Hrows. unfold copy_strip.
  rewrite copy_rows by done.
  destruct Hwf as [Hh _]. rewrite <- Hh at 1 2.
  rewrite overwrite_all by lia. done.
Qed.

Lemma fold_add_sum (f : Strip -> nat) (xs : list Strip) (a : nat) :
  fold_left Nat.add (map f xs) a = a + sum_list_with f xs.
Proof.
  revert a. induction xs as [|x xs IH]; intros a; simpl; [lia|].
  rewrite IH. lia.
Qed.

(** The outer loop: the remaining strips fill the blank rows left for them. *)
Lemma merge_loop_spec (W H : nat) (ss : list Strip)
    (above : list (list Pixel)) :
  Forall (fun s => well_formed (store s)) ss ->
  Forall (fun s => get_width (store s) = W) ss ->
  for_each (merge_step store) ss
    (mkImage W H
       (above ++ replicate (sum_list_with (fun s => get_height (store s)) ss)
                           (replicate W black)),
     length above) =
  Ok (mkImage W H (above ++ concat (map (fun s => pixels (store s)) ss)),
      length above + sum_list_with (fun s => get_height (store s)) ss).
Proof.
  revert above. induction ss as [|s ss IH]; intros above Hwf Hwd.
  { simpl. by rewrite Nat.add_0_r. }
  apply Forall_cons in Hwf as [Hs Hwf]. apply Forall_cons in Hwd as [Hws Hwd].
  simpl. rewrite replicate_add. unfold merge_step at 1. simpl.
  rewrite copy_strip_spec; try done.
  - simpl. destruct Hs as [Hh _].
    specialize (IH (above ++ pixels (store s)) Hwf Hwd).
    rewrite length_app, Hh, <- !app_assoc in IH. rewrite IH.
    by rewrite Nat.add_assoc.
  - apply length_replicate.
  - apply Forall_replicate. rewrite length_replicate. done.
Qed.

Lemma merge_loop_from_blank (W H : nat) (ss : list Strip) :
  Forall (fun s => well_formed (store s)) ss ->
  Forall (fun s => get_width (store s) = W) ss ->
  for_each (merge_step store) ss
    (mkImage W H
       (replicate (sum_list_with (fun s => get_height (store s)) ss)
                  (replicate W black)),
     0) =
  Ok (mkImage W H (concat (map (fun s => pixels (store s)) ss)),
      sum_list_with (fun s => get_height (store s)) ss).
Proof. intros Hwf Hwd. exact (merge_loop_spec W H ss [] Hwf Hwd). Qed.

Lemma concat_lookup_offset (ss : list Strip) (i r : nat) (s : Strip) :
  ss !! i = Some s ->
  r < length (pixels (store s)) ->
  Forall (fun s => well_formed (store s)) ss ->
  concat (map (fun s => pixels (store s)) ss) !! (offset_of store ss i + r) =
  pixels (store s) !! r.
Proof.
  unfold offset_of. revert i. induction ss as [|x ss IH]; intros i Hi Hr Hwf.
  { by rewrite lookup_nil in Hi. }
  apply Forall_cons in Hwf as [[Hx _] Hwf].
  destruct i as [|i]; simpl in *.
  - injection Hi as ->. by rewrite lookup_app_l.
  - rewrite lookup_app_r by lia.
    replace (get_height (store x) + _ + r - length (pixels (store x)))
      with (sum_list_with (fun s => get_height (store s)) (take i ss) + r) by lia.
    by apply IH.
Qed.

Lemma max_list_with_const (f : Strip -> nat) (w : nat) (x : Strip)
    (xs : list Strip) :
  Forall (fun s => f s = w) (x :: xs) -> max_list_with f (x :: xs) = w.
Proof.
  revert x. induction xs as [|y xs IH]; intros x Hall;
    apply Forall_cons in Hall as [Hx Hall].
  - simpl. lia.
  - specialize (IH y Hall). simpl in *. lia.
Qed.

(** The compositor's result on equal-width, well-formed strips: the rows of
    the strips, one strip after the other. *)
Lemma merge_ordered_strips_concat (first : Strip) (rest : list Strip) :
  Forall (fun s => well_formed (store s)) (first :: rest) ->
  Forall (fun s => get_width (store s) = get_width (store first)) (first :: rest) ->
  merge_ordered_strips store (first :: rest) =
  Ok (mkImage (get_width (store first))
              (sum_list_with (fun s => get_height (store s)) (first :: rest))
              (concat (map (fun s => pixels (store s)) (first :: rest)))).
Proof.
  intros Hwf Hwd. unfold merge_ordered_strips.
  change (subscript (first :: rest) 0) with (Ok (A:=Strip) first).
  cbv beta zeta. unfold bind at 1. unfold new_image.
  rewrite fold_add_sum, Nat.add_0_l.
  by rewrite merge_loop_from_blank.
Qed.

(** C2: on a non-empty list of well-formed strips of one width the compositor
    returns an image as wide as the first strip (which is also the largest
    width), as high as all strips together, and holding at offset
    [offset_of i] a pixel-exact copy of strip number [i]. *)
Theorem merge_ordered_strips_correct (first : Strip) (rest : list Strip) :
  Forall (fun s => well_formed (store s)) (first :: rest) ->
  Forall (fun s => get_width (store s) = get_width (store first)) (first :: rest) ->
  exists out,
    merge_ordered_strips store (first :: rest) = Ok out /\
    get_width out = get_width (store first) /\
    get_width out = max_list_with (fun s => get_width (store s)) (first :: rest) /\
    get_height out =
      sum_list_with (fun s => get_height (store s)) (first :: rest) /\
    forall i s r c,
      (first :: rest) !! i = Some s ->
      r < get_height (store s) -> c < get_width (store s) ->
      exists p, get_pixel (store s) r c = Ok p /\
                get_pixel out (offset_of store (first :: rest) i + r) c = Ok p.
Proof.
  intros Hwf Hwd. eexists. split; [by apply merge_ordered_strips_concat|].
  cbn [get_width get_height pixels].
  split; [done|].
  split; [by rewrite (max_list_with_const _ (get_width (store first)))|].
  split; [done|].
  intros i s r c Hi Hr Hc.
  pose proof (Forall_lookup_1 _ _ _ _ Hwf Hi) as [Hh Hw]. simpl in Hh, Hw.
  destruct (lookup_lt_is_Some_2 (pixels (store s)) r) as [row Hrow]; [lia|].
  pose proof (Forall_lookup_1 _ _ _ _ Hw Hrow) as Hlen. simpl in Hlen.
  destruct (lookup_lt_is_Some_2 row c) as [p Hp]; [lia|].
  exists p. split; [by eapply get_pixel_Ok|].
  eapply get_pixel_Ok; [|done]. cbn [pixels].
  rewrite (concat_lookup_offset _ i r s Hi) by (done || lia). done.
Qed.

End Compositor.

(** ** A single strip *)

Section SingleStrip.

Variable store : Strip -> Image.

Lemma find_bottom_strip_single (s : Strip) :
  exists e, find_bottom_strip store [s] = Raise e /\
            (has_rows (store s) -> e = ValueError).
Proof.
  unfold find_bottom_strip, find_bottom_step, best_match_score. simpl.
  rewrite filter_cons, decide_False by (by intros []). rewrite filter_nil.
  destruct (bottom_row store s) as [b|e] eqn:Hb; simpl.
  - by exists ValueError.
  - exists e. split; [done|].
    intros (b & Hb' & _)%bottom_row_Ok. congruence.
Qed.

(** C5, as amended: one strip alone does not get past the selector.
    The builder calls [find_bottom_strip], whose [min] over the other strips
    has nothing to range over and raises, so no list is returned.  The
    compositor applied to a list of one well-formed strip returns an image
    equal to that strip. *)
Theorem single_strip_behaviour (s : Strip) :
  (has_rows (store s) ->
   build_from_bottom store [s] = Some (Raise ValueError)) /\
  (exists e, build_from_bottom store [s] = Some (Raise e)) /\
  (well_formed (store s) -> merge_ordered_strips store [s] = Ok (store s)).
Proof.
  destruct (find_bottom_strip_single s) as (e & He & Hv).
  unfold build_from_bottom. rewrite He.
  split; [intros Hrows; by rewrite (Hv Hrows)|]. split; [by exists e|].
  intros Hwf. rewrite merge_ordered_strips_concat.
  - simpl. rewrite Nat.add_0_r, app_nil_r. by destruct (store s).
  - by apply Forall_singleton.
  - by apply Forall_singleton.
Qed.

End SingleStrip.

(** ** Two runs of the pipeline *)

Section TwoRuns.

Local Open Scope nat_scope.

Variables store1 store2 : Strip -> Image.
Variable R : Strip -> Strip -> Prop.

Hypothesis R_store : forall a b, R a b -> store1 a = store2 b.
Hypothesis R_ident : forall a a' b b', R a b -> R a' b' -> (a = a' <-> b = b').

Lemma for_each_rel {A1 A2 S1 S2 : Type} (RA : A1 -> A2 -> Prop)
    (RS : S1 -> S2 -> Prop)
    (body1 : S1 -> A1 -> result S1) (body2 : S2 -> A2 -> result S2)
    (xs : list A1) (ys : list A2) (s1 : S1) (s2 : S2) :
  (forall s1 s2 x y, RS s1 s2 -> RA x y ->
     result_rel RS (body1 s1 x) (body2 s2 y)) ->
  Forall2 RA xs ys -> RS s1 s2 ->
  result_rel RS (for_each body1 xs s1) (for_each body2 ys s2).
Proof.
  intros Hbody Hxs. revert s1 s2.
  induction Hxs as [|x y xs ys Hxy _ IH]; intros s1 s2 Hs; simpl.
  - by constructor.
  - destruct (Hbody s1 s2 x y Hs Hxy) as [s1' s2' Hs'|e]; simpl.
    + by apply IH.
    + constructor.
Qed.

Lemma collect_rel {B : Type} (f g : Strip -> result B) (xs ys : list Strip) :
  (forall a b, R a b -> f a = g b) ->
  Forall2 R xs ys -> collect f xs = collect g ys.
Proof.
  intros Hfg Hxs. induction Hxs as [|x y xs ys Hxy _ IH]; simpl; [done|].
  by rewrite (Hfg x y Hxy), IH.
Qed.

Lemma filter_rel (c c' : Strip) (xs ys : list Strip) :
  R c c' -> Forall2 R xs ys ->
  Forall2 R (filter (fun o => o <> c) xs) (filter (fun o => o <> c') ys).
Proof.
  intros Hc Hxs. induction Hxs as [|x y xs ys Hxy _ IH]; [constructor|].
  rewrite !filter_cons. pose proof (R_ident _ _ _ _ Hxy Hc) as Hiff.
  destruct (decide (x <> c)) as [Hx|Hx], (decide (y <> c')) as [Hy|Hy].
  - by constructor.
  - exfalso. apply Hx, Hiff. by destruct (decide (y = c')).
  - exfalso. apply Hy, Hiff. by destruct (decide (x = c)).
  - done.
Qed.

Lemma top_row_rel (a b : Strip) : R a b -> top_row store1 a = top_row store2 b.
Proof. intros Hab. unfold top_row. by rewrite (R_store _ _ Hab). Qed.

Lemma bottom_row_rel (a b : Strip) :
  R a b -> bottom_row store1 a = bottom_row store2 b.
Proof. intros Hab. unfold bottom_row. by rewrite (R_store _ _ Hab). Qed.

Lemma best_match_score_rel (l1 l2 : list Strip) (c c' : Strip) :
  Forall2 R l1 l2 -> R c c' ->
  best_match_score store1 l1 c = best_match_score store2 l2 c'.
Proof.
  intros Hl Hc. unfold best_match_score.
  rewrite (bottom_row_rel _ _ Hc).
  destruct (bottom_row store2 c') as [b|e]; simpl; [|done].
  erewrite collect_rel; [done| |by apply filter_rel].
  intros x y Hxy. by rewrite (top_row_rel _ _ Hxy).
Qed.

Lemma find_bottom_strip_rel (l1 l2 : list Strip) :
  Forall2 R l1 l2 ->
  result_rel (option_Forall2 R)
    (find_bottom_strip store1 l1) (find_bottom_strip store2 l2).
Proof.
  intros Hl. unfold find_bottom_strip.
  assert (result_rel (selection_rel R)
            (for_each (find_bottom_step store1 l1) l1 (None, (-1)%Z))
            (for_each (find_bottom_step store2 l2) l2 (None, (-1)%Z))) as Hloop.
  { apply (for_each_rel R (selection_rel R)); [|done|].
    - intros [o1 w1] [o2 w2] x y [Ho Hw] Hxy. simpl in *. subst w2.
      unfold find_bottom_step. rewrite (best_match_score_rel l1 l2 x y Hl Hxy).
      destruct (best_match_score store2 l2 y) as [k|e]; simpl; [|constructor].
      destruct (w1 <? k)%Z; constructor; split; simpl; try done.
      by constructor.
    - split; [constructor | done]. }
  destruct Hloop as [st1 st2 [Hst _]|e]; simpl; by constructor.
Qed.

Lemma find_most_similar_rel (cur1 cur2 : Strip) (l1 l2 : list Strip) :
  R cur1 cur2 -> Forall2 R l1 l2 ->
  result_rel (option_Forall2 R)
    (find_most_similar_strip_for_upwards store1 cur1 l1)
    (find_most_similar_strip_for_upwards store2 cur2 l2).
Proof.
  intros Hcur Hl. unfold find_most_similar_strip_for_upwards.
  rewrite (top_row_rel _ _ Hcur).
  destruct (top_row store2 cur2) as [t|e]; simpl; [|constructor].
  assert (result_rel (selection_rel R)
            (for_each (upwards_step store1 t) l1 (None, Infinity))
            (for_each (upwards_step store2 t) l2 (None, Infinity))) as Hloop.
  { apply (for_each_rel R (selection_rel R)); [|done|].
    - intros [o1 w1] [o2 w2] x y [Ho Hw] Hxy. simpl in *. subst w2.
      unfold upwards_step. rewrite (bottom_row_rel _ _ Hxy).
      destruct (bottom_row store2 y) as [b|e]; simpl; [|constructor].
      destruct (below _ w1); constructor; split; simpl; try done.
      by constructor.
    - split; [constructor | done]. }
  destruct Hloop as [st1 st2 [Hst _]|e]; simpl; by constructor.
Qed.

Lemma list_remove_rel (c c' : Strip) (l1 l2 : list Strip) :
  R c c' -> Forall2 R l1 l2 ->
  result_rel (Forall2 R) (list_remove c l1) (list_remove c' l2).
Proof.
  intros Hc Hl. induction Hl as [|x y xs ys Hxy Hl IH]; simpl; [constructor|].
  pose proof (R_ident _ _ _ _ Hxy Hc) as Hiff.
  destruct (decide (x = c)) as [Hx|Hx], (decide (y = c')) as [Hy|Hy];
    try (exfalso; tauto).
  - by constructor.
  - destruct IH as [r1 r2 Hr|e]; simpl; constructor. by constructor.
Qed.

Lemma chain_upwards_rel (fuel : nat) (ll1 ll2 : LinkedList)
    (pool1 pool2 : list Strip) :
  linked_rel R ll1 ll2 -> Forall2 R pool1 pool2 ->
  option_Forall2
    (result_rel (fun r1 r2 => linked_rel R (fst r1) (fst r2) /\
                              Forall2 R (snd r1) (snd r2)))
    (chain_upwards store1 fuel ll1 pool1)
    (chain_upwards store2 fuel ll2 pool2).
Proof.
  revert ll1 ll2 pool1 pool2.
  induction fuel as [|fuel IH]; intros ll1 ll2 pool1 pool2 Hll Hpool.
  { destruct Hpool; simpl; repeat constructor; done. }
  destruct Hpool as [|p1 p2 pool1 pool2 Hp Hpool].
  { simpl. repeat constructor; done. }
  cbn [chain_upwards].
  pose proof Hll as (xs1 & xs2 & Hr1 & Hr2 & Hxs).
  destruct (represents_head_strip _ _ Hr1) as [-> [cur1 Hc1]].
  destruct (represents_head_strip _ _ Hr2) as [-> [cur2 Hc2]].
  rewrite Hc1, Hc2.
  assert (R cur1 cur2) as Hcur.
  { destruct Hxs; simpl in *; by simplify_eq. }
  destruct (find_most_similar_rel cur1 cur2 (p1 :: pool1) (p2 :: pool2) Hcur)
    as [o1 o2 Ho|e]; [by constructor| |repeat constructor].
  destruct Ho as [c1 c2 Hc|].
  - destruct (list_remove_rel c1 c2 (p1 :: pool1) (p2 :: pool2) Hc)
      as [r1 r2 Hr|e]; [by constructor| |repeat constructor].
    apply IH; [|done].
    exists (c1 :: xs1), (c2 :: xs2).
    split; [by apply represents_prepend|].
    split; [by apply represents_prepend | by constructor].
  - repeat constructor; simpl; done.
Qed.

Lemma build_from_bottom_rel (l1 l2 : list Strip) :
  Forall2 R l1 l2 ->
  option_Forall2
    (result_rel (fun r1 r2 => Forall2 R (fst r1) (fst r2) /\
                              Forall2 R (snd r1) (snd r2)))
    (build_from_bottom store1 l1) (build_from_bottom store2 l2).
Proof.
  intros Hl. unfold build_from_bottom.
  destruct (find_bottom_strip_rel l1 l2 Hl) as [o1 o2 Ho|e];
    [|repeat constructor].
  destruct Ho as [b1 b2 Hb|]; [|repeat constructor].
  destruct (list_remove_rel b1 b2 l1 l2 Hb Hl) as [r1 r2 Hr|e];
    [|repeat constructor].
  rewrite (Forall2_length _ _ _ Hr).
  destruct (chain_upwards_rel (length r2) (LinkedList_init b1)
              (LinkedList_init b2) r1 r2) as [res1 res2 Hres|]; try done.
  { exists [b1], [b2]. split; [apply represents_init|].
    split; [apply represents_init | by repeat constructor]. }
  - destruct Hres as [[la ra] [lb rb] [Hlab Hrab]|e]; [|repeat constructor].
    simpl in *. destruct Hlab as (xs1 & xs2 & Hr1 & Hr2 & Hxs).
    rewrite (represents_to_list _ _ Hr1), (represents_to_list _ _ Hr2).
    repeat constructor; done.
  - constructor.
Qed.

Lemma copy_strip_rel (a b : Strip) (cur : nat) (img : Image) :
  R a b -> copy_strip store1 a cur img = copy_strip store2 b cur img.
Proof. intros Hab. unfold copy_strip. by rewrite (R_store _ _ Hab). Qed.

Lemma merge_step_rel (a b : Strip) (st : Image * nat) :
  R a b -> merge_step store1 st a = merge_step store2 st b.
Proof.
  intros Hab. unfold merge_step.
  by rewrite (copy_strip_rel _ _ _ _ Hab), (R_store _ _ Hab).
Qed.

Lemma merge_loop_rel (o1 o2 : list Strip) (st : Image * nat) :
  Forall2 R o1 o2 ->
  for_each (merge_step store1) o1 st = for_each (merge_step store2) o2 st.
Proof.
  intros Ho. revert st.
  induction Ho as [|x y xs ys Hxy _ IH]; intros st; simpl; [done|].
  rewrite (merge_step_rel _ _ _ Hxy).
  destruct (merge_step store2 st y); simpl; [apply IH | done].
Qed.

Lemma heights_rel (o1 o2 : list Strip) :
  Forall2 R o1 o2 ->
  map (fun s => get_height (store1 s)) o1 =
  map (fun s => get_height (store2 s)) o2.
Proof.
  intros Ho. induction Ho as [|x y xs ys Hxy _ IH]; simpl; [done|].
  by rewrite (R_store _ _ Hxy), IH.
Qed.

Lemma merge_ordered_strips_rel (o1 o2 : list Strip) :
  Forall2 R o1 o2 ->
  merge_ordered_strips store1 o1 = merge_ordered_strips store2 o2.
Proof.
  intros Ho. unfold merge_ordered_strips.
  rewrite (heights_rel _ _ Ho).
  pose proof (fun st => merge_loop_rel _ _ st Ho) as Hloop.
  destruct Ho as [|x y xs ys Hxy Ho]; [done|].
  change (subscript (x :: xs) 0) with (Ok (A:=Strip) x).
  change (subscript (y :: ys) 0) with (Ok (A:=Strip) y).
  cbv beta zeta. unfold bind at 1 3.
  by rewrite (R_store _ _ Hxy), Hloop.
Qed.

Lemma reconstruct_rel (l1 l2 : list Strip) :
  Forall2 R l1 l2 -> reconstruct store1 l1 = reconstruct store2 l2.
Proof.
  intros Hl. unfold reconstruct.
  destruct (build_from_bottom_rel l1 l2 Hl) as [r1 r2 Hr|]; [|done].
  destruct Hr as [[o1 rest1] [o2 rest2] [Ho _]|e]; [|done].
  simpl in Ho. by rewrite (merge_ordered_strips_rel _ _ Ho).
Qed.

End TwoRuns.

Section Determinism.

Local Open Scope nat_scope.

Lemma reconstruct_total (store : Strip -> Image) (l : list Strip) :
  is_Some (reconstruct store l).
Proof.
  unfold reconstruct.
  destruct (build_from_bottom_total store l) as [[[o rest]|e] ->]; by eexists.
Qed.

(** The same list of objects, presented again. *)
Lemma same_identities_refl (l : list Strip) : same_identities l l.
Proof. intros i j a a' b b' Ha Ha' Hb Hb'. split; congruence. Qed.

(** Two loads of the same files: distinct objects in each list. *)
Lemma NoDup_same_identities (l1 l2 : list Strip) :
  NoDup l1 -> NoDup l2 -> same_identities l1 l2.
Proof.
  intros H1 H2 i j a a' b b' Ha Ha' Hb Hb'. split; intros <-.
  - assert (i = j) as -> by exact (NoDup_lookup l1 i j a H1 Ha Ha').
    congruence.
  - assert (i = j) as -> by exact (NoDup_lookup l2 i j b H2 Hb Hb').
    congruence.
Qed.

(** Two runs on collections that hold the same images in the same order and
    alias alike end alike. *)
Lemma reconstruct_same_contents (store1 store2 : Strip -> Image)
    (l1 l2 : list Strip) :
  store1 <$> l1 = store2 <$> l2 ->
  same_identities l1 l2 ->
  is_Some (reconstruct store1 l1) /\
  reconstruct store1 l1 = reconstruct store2 l2.
Proof.
  intros Hstore Hident. split; [apply reconstruct_total|].
  set (R := fun a b => exists i, l1 !! i = Some a /\ l2 !! i = Some b).
  apply (reconstruct_rel store1 store2 R).
  - intros a b (i & Ha & Hb).
    assert ((store1 <$> l1) !! i = Some (store1 a)) as H1
      by (by rewrite list_lookup_fmap, Ha).
    assert ((store2 <$> l2) !! i = Some (store2 b)) as H2
      by (by rewrite list_lookup_fmap, Hb).
    rewrite Hstore, H2 in H1. by injection H1.
  - intros a a' b b' (i & Ha & Hb) (j & Ha' & Hb').
    by apply (Hident i j).
  - apply Forall2_same_length_lookup. split.
    + apply (f_equal length) in Hstore. by rewrite !length_fmap in Hstore.
    + intros i a b Ha Hb. by exists i.
Qed.

End Determinism.

(** ** The scenario of three one-row strips *)

Section Scenario.

Local Open Scope nat_scope.

Lemma scenario_has_rows :
  Forall (fun s => has_rows (scenario_store s)) [0; 1; 2].
Proof. repeat constructor; discriminate. Qed.

Lemma scenario_well_formed :
  Forall (fun s => well_formed (scenario_store s)) [1; 2; 0].
Proof. repeat constructor. Qed.

Lemma scenario_NoDup : NoDup [0; 1; 2].
Proof. compute_done. Qed.

Lemma reloaded_NoDup : NoDup [7; 5; 9].
Proof. compute_done. Qed.

(** What the code computes on the scenario. *)
Example scenario_bottom :
  find_bottom_strip scenario_store [0; 1; 2] = Ok (Some 0).
Proof. reflexivity. Qed.

Example scenario_order :
  build_from_bottom scenario_store [0; 1; 2] = Some (Ok ([1; 2; 0], [])).
Proof. reflexivity. Qed.

Example scenario_image :
  reconstruct scenario_store [0; 1; 2] =
  Some (Ok (mkImage 2 3 [[white; white]; [gray; gray]; [black; black]])).
Proof. reflexivity. Qed.

(** After a complete run the caller's list is empty, and a second call on
    that emptied list raises: [find_bottom_strip] returns [None], which
    [remove] does not find. *)
Example scenario_second_call_on_consumed_list :
  build_from_bottom scenario_store [] = Some (Raise ValueError).
Proof. reflexivity. Qed.

(** C5 as stated fails: on a single strip the builder raises instead of
    returning the strip alone. *)
Lemma single_strip_raises :
  build_from_bottom scenario_store [0] = Some (Raise ValueError).
Proof. reflexivity. Qed.

(** The theorems above at the scenario: their hypotheses hold there. *)
Lemma build_from_bottom_permutation_witness :
  (exists out,
     build_from_bottom scenario_store [0; 1; 2] = Some (Ok (out, [])) /\
     out ≡ₚ [0; 1; 2] /\ NoDup out) /\
  (forall cur pool,
     has_rows (scenario_store cur) ->
     Forall (fun s => has_rows (scenario_store s)) pool ->
     pool <> [] ->
     exists c, c ∈ pool /\
       find_most_similar_strip_for_upwards scenario_store cur pool
         = Ok (Some c)).
Proof.
  apply (build_from_bottom_permutation scenario_store [0; 1; 2]).
  - simpl. lia.
  - exact scenario_NoDup.
  - exact scenario_has_rows.
Defined.

Lemma merge_ordered_strips_correct_witness :
  exists out,
    merge_ordered_strips scenario_store [1; 2; 0] = Ok out /\
    get_width out = get_width (scenario_store 1) /\
    get_width out =
      max_list_with (fun s => get_width (scenario_store s)) [1; 2; 0] /\
    get_height out =
      sum_list_with (fun s => get_height (scenario_store s)) [1; 2; 0] /\
    forall i s r c,
      [1; 2; 0] !! i = Some s ->
      r < get_height (scenario_store s) -> c < get_width (scenario_store s) ->
      exists p, get_pixel (scenario_store s) r c = Ok p /\
                get_pixel out (offset_of scenario_store [1; 2; 0] i + r) c
                  = Ok p.
Proof.
  apply (merge_ordered_strips_correct scenario_store 1 [2; 0]).
  - exact scenario_well_formed.
  - repeat constructor.
Defined.

Lemma find_bottom_strip_maximin_witness :
  exists i best m,
    find_bottom_strip scenario_store [0; 1; 2] = Ok (Some best) /\
    [0; 1; 2] !! i = Some best /\
    best_match scenario_store [0; 1; 2] best m /\
    forall j c m', [0; 1; 2] !! j = Some c ->
      best_match scenario_store [0; 1; 2] c m' ->
      (m' <= m)%Z /\ (j < i -> (m' < m)%Z).
Proof.
  apply (find_bottom_strip_maximin scenario_store [0; 1; 2]).
  - simpl. lia.
  - exact scenario_NoDup.
  - exact scenario_has_rows.
Defined.

Lemma find_most_similar_minimum_witness :
  exists i c d,
    find_most_similar_strip_for_upwards scenario_store 0 [1; 2] = Ok (Some c) /\
    [1; 2] !! i = Some c /\
    upward_distance scenario_store 0 c d /\
    forall j c' d', [1; 2] !! j = Some c' ->
      upward_distance scenario_store 0 c' d' ->
      (d <= d')%Z /\ (j < i -> (d < d')%Z).
Proof.
  apply (find_most_similar_minimum scenario_store 0 [1; 2]).
  - discriminate.
  - discriminate.
  - repeat constructor; discriminate.
Defined.

Lemma find_most_similar_empty_pool_witness :
  find_most_similar_strip_for_upwards scenario_store 0 [] = Ok None.
Proof.
  apply (find_most_similar_empty_pool scenario_store 0). discriminate.
Defined.

Lemma single_strip_behaviour_witness :
  build_from_bottom scenario_store [0] = Some (Raise ValueError) /\
  merge_ordered_strips scenario_store [0] = Ok (scenario_store 0).
Proof.
  destruct (single_strip_behaviour scenario_store 0) as (Hraise & _ & Hmerge).
  split.
  - apply Hraise. discriminate.
  - apply Hmerge. repeat constructor.
Defined.

Lemma build_from_bottom_consumes_input_witness :
  exists out, build_from_bottom scenario_store [0; 1; 2] = Some (Ok (out, [])).
Proof.
  apply (proj2 (build_from_bottom_consumes_input scenario_store [0; 1; 2])).
  - simpl. lia.
  - exact scenario_NoDup.
  - exact scenario_has_rows.
Defined.

End Scenario.

(** ** The linked list under [prepend] and [append] *)

Section LinkedListWhole.

Local Open Scope nat_scope.

Lemma linked_along_bound (l : LinkedList) (addrs : list nat) (xs : list Strip)
    (a : nat) :
  linked_along l addrs xs -> a ∈ addrs -> a < length (nodes l).
Proof.
  intros (_ & _ & _ & _ & _ & _ & Hn) [k Hk]%list_elem_of_lookup_1.
  destruct (Hn k a Hk) as (nd & Hnd & _). by eapply lookup_lt_Some.
Qed.

Lemma linked_along_init (s : Strip) :
  linked_along (LinkedList_init s) [0] [s].
Proof.
  unfold linked_along. simpl. repeat split; try done.
  - apply NoDup_singleton.
  - intros a Ha. assert (a = 0) as -> by lia. apply list_elem_of_here.
  - intros k a Hk. apply list_lookup_singleton_Some in Hk as [-> <-].
    by eexists.
Qed.

Lemma linked_along_prepend (l : LinkedList) (addrs : list nat)
    (xs : list Strip) (s : Strip) :
  linked_along l addrs xs ->
  linked_along (prepend l s) (length (nodes l) :: addrs) (s :: xs).
Proof.
  intros Hl. pose proof Hl as (Hlen & Hxs & Hnd & Hall & Hhead & Htail & Hn).
  assert (head l < length (nodes l)) as Hh.
  { eapply linked_along_bound; [done|]. by eapply list_elem_of_lookup_2. }
  unfold linked_along, prepend. simpl.
  rewrite length_alter, length_app. simpl.
  split; [lia|]. split; [lia|]. split.
  { apply NoDup_cons. split; [|done].
    intros Hin. pose proof (linked_along_bound _ _ _ _ Hl Hin). lia. }
  split.
  { intros a Ha. destruct (decide (a = length (nodes l))) as [->|Hne].
    - apply list_elem_of_here.
    - apply list_elem_of_further, Hall. lia. }
  split; [done|]. split.
  { destruct addrs as [|a0 addrs']; [done|]. done. }
  intros k a Hk. destruct k as [|k]; simpl in Hk.
  - injection Hk as <-.
    rewrite list_lookup_alter_ne by lia.
    rewrite lookup_app_r by lia. rewrite Nat.sub_diag. simpl.
    eexists. split; [done|]. simpl. by rewrite Hhead.
  - destruct (Hn k a Hk) as (nd & Hnd' & Hs & Hp & Hnx).
    destruct (decide (head l = a)) as [<-|Hne].
    + assert (k = 0) as -> by (by eapply NoDup_lookup).
      rewrite list_lookup_alter_eq, (lookup_app_l_Some _ _ _ _ Hnd'). simpl.
      eexists. split; [done|]. simpl. by rewrite Hnx.
    + rewrite list_lookup_alter_ne by done.
      rewrite (lookup_app_l_Some _ _ _ _ Hnd').
      exists nd. split; [done|]. split; [done|]. split; [|done].
      destruct k as [|k]; [|done].
      rewrite Hhead in Hk. by injection Hk.
Qed.

Lemma linked_along_append (l : LinkedList) (addrs : list nat)
    (xs : list Strip) (s : Strip) :
  linked_along l addrs xs ->
  linked_along (append l s) (addrs ++ [length (nodes l)]) (xs ++ [s]).
Proof.
  intros Hl. pose proof Hl as (Hlen & Hxs & Hnd & Hall & Hhead & Htail & Hn).
  assert (tail l < length (nodes l)) as Ht.
  { eapply linked_along_bound; [done|].
    rewrite last_lookup in Htail. by eapply list_elem_of_lookup_2. }
  assert (0 < length addrs) as Hpos by (by eapply lookup_lt_Some).
  unfold linked_along, append. simpl.
  rewrite length_alter, !length_app. simpl.
  split; [lia|]. split; [lia|]. split.
  { apply NoDup_app. split; [done|]. split; [|apply NoDup_singleton].
    intros a Hin ->%list_elem_of_singleton.
    pose proof (linked_along_bound _ _ _ _ Hl Hin). lia. }
  split.
  { intros a Ha. apply elem_of_app.
    destruct (decide (a = length (nodes l))) as [->|Hne].
    - right. apply list_elem_of_here.
    - left. apply Hall. lia. }
  split; [by apply lookup_app_l_Some|]. split; [by rewrite last_snoc|].
  intros k a Hk. apply lookup_app_Some in Hk as [Hk|[Hge Hk]].
  - destruct (Hn k a Hk) as (nd & Hnd' & Hs & Hp & Hnx).
    pose proof (lookup_lt_Some _ _ _ Hk) as Hklt.
    assert (prev nd = match k with 0 => None
                      | S j => (addrs ++ [length (nodes l)]) !! j end) as Hp'.
    { rewrite Hp. destruct k as [|j]; [done|]. by rewrite lookup_app_l by lia. }
    destruct (decide (tail l = a)) as [<-|Hne].
    + assert (k = pred (length addrs)) as Hkk.
      { rewrite last_lookup in Htail. by eapply NoDup_lookup. }
      rewrite list_lookup_alter_eq, (lookup_app_l_Some _ _ _ _ Hnd'). simpl.
      eexists. split; [done|]. simpl.
      split; [by apply lookup_app_l_Some|]. split; [done|].
      replace (S k) with (length addrs) by lia.
      by rewrite list_lookup_middle.
    + rewrite list_lookup_alter_ne by done.
      rewrite (lookup_app_l_Some _ _ _ _ Hnd').
      exists nd. split; [done|]. split; [by apply lookup_app_l_Some|].
      split; [done|]. rewrite Hnx.
      destruct (decide (S k < length addrs)) as [Hlt|Hnlt].
      * by rewrite lookup_app_l.
      * exfalso. apply Hne. rewrite last_lookup in Htail.
        replace (pred (length addrs)) with k in Htail by lia. congruence.
  - apply list_lookup_singleton_Some in Hk as [Hk <-].
    assert (k = length addrs) as -> by lia.
    rewrite list_lookup_alter_ne by lia.
    rewrite lookup_app_r by lia. rewrite Nat.sub_diag. simpl.
    eexists. split; [done|]. simpl.
    split; [by rewrite <- Hxs, list_lookup_middle|]. split.
    + destruct (length addrs) as [|j] eqn:Hj; [lia|].
      rewrite lookup_app_l by lia. rewrite last_lookup, Hj in Htail. done.
    + symmetry. apply lookup_ge_None. rewrite length_app. simpl. lia.
Qed.

Lemma built_linked_along (l : LinkedList) (xs : list Strip) :
  built l xs -> exists addrs, linked_along l addrs xs.
Proof.
  induction 1 as [s|l xs s _ [addrs IH]|l xs s _ [addrs IH]].
  - eexists. apply linked_along_init.
  - eexists. by apply linked_along_prepend.
  - eexists. by apply linked_along_append.
Qed.

Lemma to_list_walk_along (l : LinkedList) (addrs : list nat) (xs : list Strip) :
  linked_along l addrs xs ->
  forall fuel k acc, length addrs - k <= fuel ->
    to_list_walk fuel (nodes l) (addrs !! k) acc = Some (acc ++ drop k xs).
Proof.
  intros (Hlen & Hxs & _ & _ & _ & _ & Hn) fuel.
  induction fuel as [|fuel IH]; intros k acc Hfuel.
  - rewrite (proj2 (lookup_ge_None addrs k)) by lia. simpl.
    by rewrite drop_ge, app_nil_r by lia.
  - destruct (addrs !! k) as [a|] eqn:Hk.
    + destruct (Hn k a Hk) as (nd & Hnd & Hs & _ & Hnx). simpl.
      rewrite Hnd, Hnx, IH by lia.
      by rewrite (drop_S _ _ _ Hs), <- app_assoc.
    + apply lookup_ge_None in Hk. simpl.
      by rewrite drop_ge, app_nil_r by lia.
Qed.

(** X1: for a linked list made by the constructor and any sequence of
    [prepend] and [append] calls, [to_list] returns, head to tail, the
    prepended strips in front (latest first), then the constructor's strip,
    then the appended strips in the order of the calls; the walk ends within
    the size of the node store. *)
Theorem to_list_built (l : LinkedList) (xs : list Strip) :
  built l xs -> to_list l = Some xs.
Proof.
  intros [addrs Hl]%built_linked_along.
  pose proof Hl as (Hlen & _ & _ & _ & Hhead & _).
  unfold to_list. rewrite <- Hhead.
  rewrite (to_list_walk_along l addrs xs Hl) by lia. by rewrite drop_0.
Qed.

(** X2: in such a list the two directions agree: the successor of a node has
    that node as predecessor and conversely, exactly the head has no
    predecessor and exactly the tail has no successor. *)
Theorem built_doubly_linked (l : LinkedList) (xs : list Strip)
    (a : nat) (nd : Node) :
  built l xs -> nodes l !! a = Some nd ->
  (forall b, next nd = Some b ->
     exists nd', nodes l !! b = Some nd' /\ prev nd' = Some a) /\
  (forall b, prev nd = Some b ->
     exists nd', nodes l !! b = Some nd' /\ next nd' = Some a) /\
  (prev nd = None <-> a = head l) /\
  (next nd = None <-> a = tail l).
Proof.
  intros [addrs Hl]%built_linked_along Hnd.
  pose proof Hl as (Hlen & Hxs & Hdup & Hall & Hhead & Htail & Hn).
  destruct (list_elem_of_lookup_1 addrs a) as [k Hk].
  { apply Hall. by eapply lookup_lt_Some. }
  destruct (Hn k a Hk) as (nd0 & Hnd0 & _ & Hp & Hnx).
  rewrite Hnd in Hnd0. injection Hnd0 as <-.
  pose proof (lookup_lt_Some _ _ _ Hk) as Hklt.
  rewrite last_lookup in Htail.
  split; [|split; [|split]].
  - intros b Hb. rewrite Hnx in Hb.
    destruct (Hn (S k) b Hb) as (nd' & Hnd' & _ & Hp' & _).
    exists nd'. split; [done|]. by rewrite Hp'.
  - intros b Hb. rewrite Hp in Hb. destruct k as [|j]; [done|].
    destruct (Hn j b Hb) as (nd' & Hnd' & _ & _ & Hnx').
    exists nd'. split; [done|]. by rewrite Hnx'.
  - rewrite Hp. split.
    + destruct k as [|j]; [congruence|].
      intros Hnone. apply lookup_ge_None in Hnone. lia.
    + intros ->. by rewrite (NoDup_lookup _ _ _ _ Hdup Hk Hhead).
  - rewrite Hnx, lookup_ge_None. split.
    + intros Hge. assert (k = pred (length addrs)) as -> by lia. congruence.
    + intros ->. rewrite (NoDup_lookup _ _ _ _ Hdup Hk Htail). lia.
Qed.

(** X16: in such a list [head] is the node of the first strip and [tail] the
    node of the last one, so [linked.head.strip] reads the strip prepended
    last (or the constructor's strip when nothing was prepended). *)
Theorem built_head_tail (l : LinkedList) (xs : list Strip) :
  built l xs ->
  head_strip l = xs !! 0 /\
  (strip <$> nodes l !! (tail l)) = last xs /\
  is_Some (head_strip l).
Proof.
  intros [addrs Hl]%built_linked_along.
  pose proof Hl as (Hlen & Hxs & _ & _ & Hhead & Htail & Hn).
  destruct (Hn 0 _ Hhead) as (nd & Hnd & Hs & _).
  rewrite last_lookup in Htail.
  destruct (Hn _ _ Htail) as (nd' & Hnd' & Hs' & _).
  unfold head_strip. rewrite Hnd, Hnd'. simpl.
  split; [done|]. split; [|by eexists].
  by rewrite last_lookup, Hxs.
Qed.

End LinkedListWhole.

(** ** When the selectors return and when they raise *)

Section SelectorOutcomes.

Local Open Scope nat_scope.

Variable store : Strip -> Image.

Lemma top_row_cases (s : Strip) :
  (has_rows (store s) /\ exists t, top_row store s = Ok t) \/
  (~ has_rows (store s) /\ top_row store s = Raise IndexError).
Proof.
  unfold has_rows, top_row, subscript.
  destruct (pixels (store s)) as [|t rows]; simpl.
  - right. by split; [intros []|].
  - left. by split; [|exists t].
Qed.

Lemma bottom_row_cases (s : Strip) :
  (has_rows (store s) /\ exists b, bottom_row store s = Ok b) \/
  (~ has_rows (store s) /\ bottom_row store s = Raise IndexError).
Proof.
  unfold has_rows, bottom_row, subscript_last.
  destruct (last (pixels (store s))) as [b|] eqn:Hlast.
  - left. split; [|by exists b]. intros Hnil. by rewrite Hnil in Hlast.
  - right. apply last_None in Hlast. split; [by intros []|done].
Qed.

Lemma collect_Ok_length {A B : Type} (f : A -> result B) (xs : list A)
    (ys : list B) :
  collect f xs = Ok ys -> length ys = length xs.
Proof.
  revert ys. induction xs as [|x xs IH]; intros ys; simpl.
  - by intros [= <-].
  - destruct (f x); simpl; [|done].
    destruct (collect f xs); simpl; [|done].
    intros [= <-]. simpl. by rewrite (IH _ eq_refl).
Qed.

Lemma collect_Raise {A B : Type} (f : A -> result B) (xs : list A) (e : exn) :
  collect f xs = Raise e -> exists x, x ∈ xs /\ f x = Raise e.
Proof.
  induction xs as [|x xs IH]; simpl; [done|].
  destruct (f x) as [y|e'] eqn:Hx; simpl.
  - destruct (collect f xs); simpl; [done|]. intros [= ->].
    destruct (IH eq_refl) as (x' & Hin & Hx').
    exists x'. split; [by apply list_elem_of_further | done].
  - intros [= ->]. exists x. split; [apply list_elem_of_here | done].
Qed.

(** The loop of the chainer stops at the first candidate without rows. *)
Lemma upwards_loop_cases (t : list Pixel) (pool : list Strip)
    (st : option Strip * distance) :
  (Forall (fun c => has_rows (store c)) pool /\
   exists st', for_each (upwards_step store t) pool st = Ok st') \/
  (~ Forall (fun c => has_rows (store c)) pool /\
   for_each (upwards_step store t) pool st = Raise IndexError).
Proof.
  revert st. induction pool as [|c pool IH]; intros st; simpl.
  { left. split; [constructor | by eexists]. }
  unfold upwards_step at 1 3.
  destruct (bottom_row_cases c) as [[Hc [b ->]]|[Hc ->]]; simpl.
  - set (st1 := if below _ _ then _ else _).
    assert (exists st2, st1 = Ok st2) as [st2 ->]
      by (subst st1; destruct (below _ _); by eexists).
    simpl. destruct (IH st2) as [[Hall Hrun]|[Hnot Hrun]].
    + left. split; [by constructor | done].
    + right. split; [|done]. intros Hall. apply Hnot.
      by apply Forall_cons in Hall as [_ ?].
  - right. split; [|done]. intros Hall.
    by apply Forall_cons in Hall as [? _].
Qed.

Lemma find_most_similar_cases (cur : Strip) (pool : list Strip) :
  (has_rows (store cur) /\ Forall (fun c => has_rows (store c)) pool /\
   exists o, find_most_similar_strip_for_upwards store cur pool = Ok o) \/
  (~ (has_rows (store cur) /\ Forall (fun c => has_rows (store c)) pool) /\
   find_most_similar_strip_for_upwards store cur pool = Raise IndexError).
Proof.
  unfold find_most_similar_strip_for_upwards.
  destruct (top_row_cases cur) as [[Hcur [t ->]]|[Hcur ->]]; simpl.
  - destruct (upwards_loop_cases t pool (None, Infinity))
      as [[Hall [st' ->]]|[Hnot ->]]; simpl.
    + left. split; [done|]. split; [done|]. by eexists.
    + right. split; [|done]. by intros [_ ?].
  - right. split; [|done]. by intros [? _].
Qed.

Lemma find_most_similar_Ok_rows (cur : Strip) (pool : list Strip)
    (o : option Strip) :
  find_most_similar_strip_for_upwards store cur pool = Ok o ->
  has_rows (store cur) /\ Forall (fun c => has_rows (store c)) pool.
Proof.
  intros Hrun.
  destruct (find_most_similar_cases cur pool) as [(? & ? & _)|[_ Hr]]; [done|].
  congruence.
Qed.

(** Whenever the chainer returns a strip, it is a candidate that no candidate
    beats. *)
Lemma find_most_similar_Ok_min (cur c : Strip) (pool : list Strip) :
  find_most_similar_strip_for_upwards store cur pool = Ok (Some c) ->
  c ∈ pool /\
  exists d, upward_distance store cur c d /\
    forall c' d', c' ∈ pool -> upward_distance store cur c' d' -> (d <= d')%Z.
Proof.
  intros Hrun.
  destruct (find_most_similar_Ok_rows _ _ _ Hrun) as [Hcur Hpool].
  assert (pool <> []) as Hne.
  { intros ->. pose proof (top_row_Ok store cur Hcur) as (t & Ht & _).
    unfold find_most_similar_strip_for_upwards in Hrun.
    rewrite Ht in Hrun. simpl in Hrun. congruence. }
  destruct (top_row_Ok store cur Hcur) as (t & Htop & Ht).
  destruct (upwards_scan store pool t Hne Hpool)
    as (i & c0 & d & Hloop & Hi & Hd & Hall).
  unfold find_most_similar_strip_for_upwards in Hrun.
  rewrite Htop in Hrun. simpl in Hrun. rewrite Hloop in Hrun. simpl in Hrun.
  injection Hrun as ->.
  split; [by eapply list_elem_of_lookup_2|].
  exists d. split.
  - rewrite Forall_forall in Hpool.
    destruct (upward_key_Ok store cur c t Ht) as (d0 & Hd0 & Hdist).
    { apply Hpool. by eapply list_elem_of_lookup_2. }
    rewrite Hd in Hd0. by injection Hd0 as <-.
  - intros c' d' [j Hj]%list_elem_of_lookup_1 Hd'.
    destruct (Hall j c' d' Hj (upward_distance_key store _ _ _ _ Ht Hd'))
      as [Hle _]. lia.
Qed.

Lemma find_most_similar_empty_pool_any (cur : Strip) :
  has_rows (store cur) ->
  find_most_similar_strip_for_upwards store cur [] = Ok None.
Proof.
  intros (t & Htop & _)%(top_row_Ok store).
  unfold find_most_similar_strip_for_upwards. by rewrite Htop.
Qed.

Lemma find_most_similar_Ok_nonempty (cur : Strip) (pool : list Strip) :
  pool <> [] ->
  find_most_similar_strip_for_upwards store cur pool <> Ok None.
Proof.
  intros Hne Hrun.
  destruct (find_most_similar_Ok_rows _ _ _ Hrun) as [Hcur Hpool].
  destruct (find_most_similar_member store cur pool Hne Hcur Hpool)
    as (c & _ & Hc). congruence.
Qed.

(** X3: the chainer returns exactly when the current strip and every
    candidate have at least one pixel row; otherwise the subscript
    [pixels[0]] or [pixels[-1]] fails and it raises [IndexError], the only
    exception it can raise. *)
Theorem find_most_similar_returns_iff (cur : Strip) (pool : list Strip) :
  ((exists o, find_most_similar_strip_for_upwards store cur pool = Ok o) <->
   has_rows (store cur) /\ Forall (fun c => has_rows (store c)) pool) /\
  (forall e, find_most_similar_strip_for_upwards store cur pool = Raise e ->
             e = IndexError).
Proof.
  destruct (find_most_similar_cases cur pool)
    as [(Hcur & Hpool & [o Ho])|[Hnot Hr]].
  - split; [|congruence]. split; [done|]. by exists o.
  - split; [|congruence]. split; [|done]. intros [o Ho]. congruence.
Qed.

(** X4: whenever the chainer returns, its result is [None] exactly for the
    empty pool, and a returned strip is one of the candidates. *)
Theorem find_most_similar_result_in_pool (cur : Strip) (pool : list Strip)
    (o : option Strip) :
  find_most_similar_strip_for_upwards store cur pool = Ok o ->
  (o = None <-> pool = []) /\ (forall c, o = Some c -> c ∈ pool).
Proof.
  intros Hrun. split; [split|].
  - intros ->. destruct pool as [|p pool]; [done|].
    by destruct (find_most_similar_Ok_nonempty cur (p :: pool)).
  - intros ->. destruct (find_most_similar_Ok_rows _ _ _ Hrun) as [Hcur _].
    rewrite (find_most_similar_empty_pool_any cur Hcur) in Hrun. congruence.
  - intros c ->. by destruct (find_most_similar_Ok_min _ _ _ Hrun).
Qed.

(** X5: whenever the pool holds a candidate whose last row is pixel-identical
    to the first row of the current strip (distance 0), the candidate the
    chainer returns is at distance 0 as well. *)
Theorem find_most_similar_exact_match (cur c' : Strip) (pool : list Strip)
    (o : option Strip) :
  find_most_similar_strip_for_upwards store cur pool = Ok o ->
  c' ∈ pool -> upward_distance store cur c' 0%Z ->
  exists c, o = Some c /\ c ∈ pool /\ upward_distance store cur c 0%Z.
Proof.
  intros Hrun Hin Hzero. destruct o as [c|].
  - destruct (find_most_similar_Ok_min _ _ _ Hrun) as (Hc & d & Hd & Hmin).
    exists c. split; [done|]. split; [done|].
    pose proof (Hmin c' 0%Z Hin Hzero) as Hle.
    destruct Hd as (t & b & Ht & Hb & ->).
    pose proof (rows_comparison_nonneg t b).
    exists t, b. split; [done|]. split; [done|]. lia.
  - destruct (find_most_similar_Ok_nonempty cur pool); [|done].
    intros ->. by apply elem_of_nil in Hin.
Qed.

(** The score of one candidate of the selector: when it exists and what its
    absence reports. *)
Lemma best_match_score_cases (strips : list Strip) (c : Strip) :
  (has_rows (store c) /\ has_other strips c /\
   exists m, best_match_score store strips c = Ok m) \/
  (best_match_score store strips c = Raise IndexError /\
   exists s, (s = c \/ s ∈ strips) /\ ~ has_rows (store s)) \/
  (best_match_score store strips c = Raise ValueError /\ ~ has_other strips c).
Proof.
  unfold best_match_score.
  destruct (bottom_row_cases c) as [[Hc [b ->]]|[Hc ->]]; simpl.
  2:{ right. left. split; [done|]. exists c. by split; [left|]. }
  destruct (collect _ _) as [scores|e] eqn:Hcol; simpl.
  - destruct scores as [|m scores]; simpl.
    + right. right. split; [done|]. intros (o & Ho & Hoc).
      apply collect_Ok_length in Hcol. simpl in Hcol. symmetry in Hcol.
      apply nil_length_inv in Hcol.
      assert (o ∈ filter (fun other => other <> c) strips) as Hin
        by (by apply list_elem_of_filter).
      rewrite Hcol in Hin. by apply elem_of_nil in Hin.
    + left. split; [done|]. split; [|by eexists].
      apply collect_Ok_length in Hcol.
      destruct (filter (fun other => other <> c) strips) as [|o os] eqn:Hf;
        [done|].
      assert (o ∈ filter (fun other => other <> c) strips) as Hin
        by (rewrite Hf; apply list_elem_of_here).
      apply list_elem_of_filter in Hin as [Hoc Ho]. by exists o.
  - right. left.
    apply collect_Raise in Hcol as (o & [_ Ho]%list_elem_of_filter & Hraise).
    destruct (top_row_cases o) as [[_ [t Ht]]|[Hno Ht]];
      rewrite Ht in Hraise; simpl in Hraise; [done|].
    injection Hraise as <-. split; [done|]. exists o. by split; [right|].
Qed.

(** The selector's loop returns exactly when every candidate has a score. *)
Lemma find_bottom_loop_cases (strips cands : list Strip) (st : option Strip * Z) :
  ((forall c, c ∈ cands -> exists m, best_match_score store strips c = Ok m) /\
   exists st', for_each (find_bottom_step store strips) cands st = Ok st') \/
  (exists c e, c ∈ cands /\ best_match_score store strips c = Raise e /\
     for_each (find_bottom_step store strips) cands st = Raise e).
Proof.
  revert st. induction cands as [|c cands IH]; intros st; simpl.
  { left. split; [by intros c ?%elem_of_nil | by eexists]. }
  unfold find_bottom_step at 1 3.
  destruct (best_match_score store strips c) as [m|e] eqn:Hm; simpl.
  - set (st1 := if (_ <? _)%Z then _ else _).
    assert (exists st2, st1 = Ok st2) as [st2 ->]
      by (subst st1; destruct (_ <? _)%Z; by eexists).
    simpl. destruct (IH st2) as [[Hall Hrun]|(c' & e & Hin & Hc' & Hrun)].
    + left. split; [|done].
      intros c' [->|Hin]%elem_of_cons; [by eexists | by apply Hall].
    + right. exists c', e. split; [by apply list_elem_of_further | done].
  - right. exists c, e. split; [apply list_elem_of_here | done].
Qed.

Lemma find_bottom_strip_Ok_orderable (strips : list Strip) (b : Strip) :
  find_bottom_strip store strips = Ok (Some b) ->
  orderable store strips /\ b ∈ strips.
Proof.
  intros Hrun. unfold find_bottom_strip in Hrun.
  destruct (find_bottom_loop_cases strips strips (None, (-1)%Z))
    as [[Hall _]|(c & e & _ & _ & Hr)];
    [|rewrite Hr in Hrun; simpl in Hrun; congruence].
  assert (strips <> []) as Hne by (by intros ->).
  assert (Forall (fun s => has_rows (store s)) strips /\
          forall c, c ∈ strips -> has_other strips c) as [Hrows Hother].
  { split; [apply Forall_forall|]; intros c Hc;
      destruct (Hall c Hc) as [m Hm];
      destruct (best_match_score_cases strips c)
        as [(? & ? & _)|[[Hr _]|[Hr _]]]; congruence. }
  split; [done|].
  destruct (find_bottom_scan store strips Hne Hrows Hother)
    as (i & b' & m & Hloop & Hi & _).
  rewrite Hloop in Hrun. simpl in Hrun. injection Hrun as <-.
  by eapply list_elem_of_lookup_2.
Qed.

Lemma orderable_find_bottom_strip (strips : list Strip) :
  orderable store strips ->
  exists b, b ∈ strips /\ find_bottom_strip store strips = Ok (Some b).
Proof.
  intros (Hne & Hrows & Hother).
  destruct (find_bottom_scan store strips Hne Hrows Hother)
    as (i & b & m & Hloop & Hi & _).
  exists b. split; [by eapply list_elem_of_lookup_2|].
  unfold find_bottom_strip. by rewrite Hloop.
Qed.

Lemma find_bottom_strip_Raise (strips : list Strip) (e : exn) :
  find_bottom_strip store strips = Raise e ->
  (e = IndexError /\ ~ Forall (fun s => has_rows (store s)) strips) \/
  (e = ValueError /\ exists c, c ∈ strips /\ ~ has_other strips c).
Proof.
  intros Hrun. unfold find_bottom_strip in Hrun.
  destruct (find_bottom_loop_cases strips strips (None, (-1)%Z))
    as [[_ [st' Hr]]|(c & e' & Hin & Hc & Hr)];
    rewrite Hr in Hrun; simpl in Hrun; [done|].
  injection Hrun as ->.
  destruct (best_match_score_cases strips c)
    as [(_ & _ & [m Hm])|[[Hr' (s & Hs & Hno)]|[Hr' Hno]]];
    try congruence.
  - left. split; [congruence|]. rewrite Forall_forall. intros Hall.
    apply Hno, Hall. by destruct Hs as [->|?].
  - right. split; [congruence|]. by exists c.
Qed.

(** X6: the selector returns a strip exactly on a non-empty list in which
    every strip has at least one row and another strip beside it, and that
    strip is one of the list; it returns [None] exactly on the empty list;
    an [IndexError] reports a strip without rows and a [ValueError] a strip
    with no other strip to compare with. *)
Theorem find_bottom_strip_outcomes (strips : list Strip) :
  ((exists b, find_bottom_strip store strips = Ok (Some b)) <->
   orderable store strips) /\
  (forall b, find_bottom_strip store strips = Ok (Some b) -> b ∈ strips) /\
  (find_bottom_strip store strips = Ok None <-> strips = []) /\
  (forall e, find_bottom_strip store strips = Raise e ->
     (e = IndexError /\ ~ Forall (fun s => has_rows (store s)) strips) \/
     (e = ValueError /\ exists c, c ∈ strips /\ ~ has_other strips c)).
Proof.
  split; [split|split; [|split]].
  - intros [b Hb]. by destruct (find_bottom_strip_Ok_orderable _ _ Hb).
  - intros Hord. destruct (orderable_find_bottom_strip _ Hord) as (b & _ & Hb).
    by exists b.
  - intros b Hb. by destruct (find_bottom_strip_Ok_orderable _ _ Hb).
  - split; [|by intros ->].
    intros Hnone. destruct strips as [|s strips]; [done|]. exfalso.
    unfold find_bottom_strip in Hnone.
    destruct (find_bottom_loop_cases (s :: strips) (s :: strips) (None, (-1)%Z))
      as [[Hall _]|(c & e & _ & _ & Hr)];
      [|rewrite Hr in Hnone; simpl in Hnone; congruence].
    assert (orderable store (s :: strips)) as Hord.
    { split; [done|]. split; [apply Forall_forall|]; intros c Hc;
        destruct (Hall c Hc) as [m Hm];
        destruct (best_match_score_cases (s :: strips) c)
          as [(? & ? & _)|[[Hr _]|[Hr _]]]; congruence. }
    destruct (orderable_find_bottom_strip _ Hord) as (b & _ & Hb).
    unfold find_bottom_strip in Hb. congruence.
  - apply find_bottom_strip_Raise.
Qed.

End SelectorOutcomes.

(** ** What the builder returns, and when *)

Section BuilderOutcomes.

Local Open Scope nat_scope.

Variable store : Strip -> Image.

(** Two or more distinct strips with rows can be ordered. *)
Lemma NoDup_orderable (strips : list Strip) :
  2 <= length strips -> NoDup strips ->
  Forall (fun s => has_rows (store s)) strips ->
  orderable store strips.
Proof.
  intros Hlen Hnd Hrows. split; [|split; [done|]].
  - intros ->. simpl in Hlen. lia.
  - intros c _. by apply NoDup_other.
Qed.

Lemma build_from_bottom_orderable (image_strips : list Strip) :
  orderable store image_strips ->
  exists out, build_from_bottom store image_strips = Some (Ok (out, [])) /\
              out ≡ₚ image_strips.
Proof.
  intros Hord. pose proof Hord as (_ & Hrows & _).
  destruct (orderable_find_bottom_strip store _ Hord) as (b & Hb & Hfind).
  destruct (list_remove_elem b _ Hb) as [remaining Hrm].
  pose proof (list_remove_Ok _ _ _ Hrm) as [Hperm _].
  destruct (chain_upwards_exhausts store (length remaining) (LinkedList_init b)
              [b] remaining (represents_init b) (le_n _)) as [linked Hrun].
  { simpl. by rewrite <- Hperm. }
  destruct (chain_upwards_moves store _ _ _ _ _ _ (represents_init b) Hrun)
    as (out & Hrep & Hperm' & _).
  exists out. unfold build_from_bottom.
  rewrite Hfind, Hrm, Hrun, (represents_to_list _ _ Hrep).
  split; [done|]. rewrite app_nil_r in Hperm'. by rewrite Hperm', Hperm.
Qed.

Lemma build_from_bottom_Ok_orderable (image_strips out rest : list Strip) :
  build_from_bottom store image_strips = Some (Ok (out, rest)) ->
  orderable store image_strips.
Proof.
  unfold build_from_bottom.
  destruct (find_bottom_strip store image_strips) as [[b|]|e] eqn:Hfind;
    try done.
  intros _. by destruct (find_bottom_strip_Ok_orderable store _ _ Hfind).
Qed.

Lemma chain_upwards_Raise (fuel : nat) (linked : LinkedList)
    (pool : list Strip) (e : exn) :
  chain_upwards store fuel linked pool = Some (Raise e) ->
  e = IndexError \/ e = ValueError.
Proof.
  revert linked pool. induction fuel as [|fuel IH]; intros linked pool.
  { by destruct pool. }
  destruct pool as [|p pool]; [done|]. cbn [chain_upwards].
  destruct (head_strip linked) as [cur|]; [|done].
  destruct (find_most_similar_strip_for_upwards store cur (p :: pool))
    as [[c|]|e'] eqn:Hfind; [| done |].
  - destruct (list_remove c (p :: pool)) as [pool'|e'] eqn:Hrm.
    + apply IH.
    + intros [= <-]. right. clear -Hrm.
      revert e' Hrm. generalize (p :: pool). intros xs.
      induction xs as [|y xs IHxs]; intros e' Hrm; simpl in Hrm.
      * congruence.
      * destruct (decide (y = c)); [done|].
        destruct (list_remove c xs); simpl in Hrm; [done|].
        injection Hrm as <-. by apply IHxs.
  - intros [= <-]. left.
    destruct (find_most_similar_cases store cur (p :: pool))
      as [(_ & _ & [o Ho])|[_ Hr]]; congruence.
Qed.

(** X7: whenever the builder returns a list, it has placed every strip: the
    list is a rearrangement of the input (objects occurring several times
    keep their number of occurrences) and nothing is left in the caller's
    list.  The early exit of the loop never produces a shortened result. *)
Theorem build_from_bottom_places_all (image_strips out rest : list Strip) :
  build_from_bottom store image_strips = Some (Ok (out, rest)) ->
  rest = [] /\ out ≡ₚ image_strips /\ length out = length image_strips.
Proof.
  intros Hrun.
  destruct (build_from_bottom_orderable image_strips) as (out' & Hrun' & Hperm).
  { by eapply build_from_bottom_Ok_orderable. }
  rewrite Hrun' in Hrun. injection Hrun as <- <-.
  split; [done|]. split; [done|]. by rewrite Hperm.
Qed.

(** X8: the builder returns a list exactly on a non-empty input in which
    every strip has at least one row and is not the only object of the list;
    on every other input, the empty list and a single strip included, it
    raises [IndexError] or [ValueError].  It always terminates. *)
Theorem build_from_bottom_returns_iff (image_strips : list Strip) :
  ((exists out rest,
      build_from_bottom store image_strips = Some (Ok (out, rest))) <->
   orderable store image_strips) /\
  (~ orderable store image_strips ->
   exists e, build_from_bottom store image_strips = Some (Raise e)) /\
  (forall e, build_from_bottom store image_strips = Some (Raise e) ->
             e = IndexError \/ e = ValueError).
Proof.
  split; [split|split].
  - intros (out & rest & Hrun). by eapply build_from_bottom_Ok_orderable.
  - intros Hord.
    destruct (build_from_bottom_orderable _ Hord) as (out & Hrun & _).
    by exists out, [].
  - intros Hnot.
    destruct (build_from_bottom_total store image_strips) as [[[out rest]|e] Hr].
    + exfalso. by eapply Hnot, build_from_bottom_Ok_orderable.
    + by exists e.
  - intros e. unfold build_from_bottom.
    destruct (find_bottom_strip store image_strips) as [[b|]|e'] eqn:Hfind.
    + destruct (list_remove b image_strips) as [remaining|e'] eqn:Hrm.
      * destruct (chain_upwards store _ _ remaining)
          as [[[linked rest]|e']|] eqn:Hchain; [| |done].
        -- by destruct (to_list linked).
        -- intros [= <-]. by eapply chain_upwards_Raise.
      * intros [= <-]. right.
        destruct (find_bottom_strip_Ok_orderable store _ _ Hfind) as [_ Hb].
        destruct (list_remove_elem b _ Hb) as [r Hr]. congruence.
    + intros [= <-]. by right.
    + intros [= <-].
      destruct (find_bottom_strip_Raise store _ _ Hfind) as [[-> _]|[-> _]];
        [by left | by right].
Qed.

(** The loop only adds in front, and each strip it adds is the nearest of
    the pool at that moment. *)
Lemma chain_upwards_greedy (fuel : nat) (linked linked' : LinkedList)
    (xs pool rest : list Strip) :
  represents linked xs ->
  chain_upwards store fuel linked pool = Some (Ok (linked', rest)) ->
  exists added,
    represents linked' (added ++ xs) /\
    added ++ rest ≡ₚ pool /\
    forall k a b, k < length added ->
      (added ++ xs) !! k = Some a -> (added ++ xs) !! S k = Some b ->
      exists d, upward_distance store b a d /\
        forall j c d', j <= k -> (added ++ xs) !! j = Some c ->
          upward_distance store b c d' -> (d <= d')%Z.
Proof.
  revert linked xs pool.
  induction fuel as [|fuel IH]; intros linked xs pool Hrep Hrun.
  { destruct pool; simpl in Hrun; [|done]. injection Hrun as <- <-.
    exists []. split; [done|]. split; [done|]. simpl. intros; lia. }
  destruct pool as [|p pool'].
  { simpl in Hrun. injection Hrun as <- <-.
    exists []. split; [done|]. split; [done|]. simpl. intros; lia. }
  cbn [chain_upwards] in Hrun.
  destruct (represents_head_strip _ _ Hrep) as [Hhs [cur Hcur]].
  rewrite Hhs, Hcur in Hrun.
  destruct (find_most_similar_strip_for_upwards store cur (p :: pool'))
    as [[c|]|e] eqn:Hfind; [| |done].
  2:{ by destruct (find_most_similar_Ok_nonempty store cur (p :: pool')). }
  destruct (list_remove c (p :: pool')) as [pool''|e] eqn:Hrm; [|done].
  apply list_remove_Ok in Hrm as [Hperm _].
  destruct (IH _ (c :: xs) _ (represents_prepend _ _ c Hrep) Hrun)
    as (added & Hrep' & Hperm' & Hgreedy).
  destruct (find_most_similar_Ok_min store _ _ _ Hfind) as (Hc & d & Hd & Hmin).
  exists (added ++ [c]). rewrite <- !app_assoc. simpl.
  split; [done|]. split.
  { rewrite Hperm, <- Hperm'. by rewrite Permutation_middle. }
  rewrite length_app. simpl. intros k a b Hk Ha Hb.
  destruct (decide (k < length added)) as [Hlt|Hge]; [by apply Hgreedy|].
  assert (k = length added) as -> by lia.
  rewrite list_lookup_middle in Ha by done. injection Ha as <-.
  rewrite lookup_app_r in Hb by lia.
  replace (S (length added) - length added) with 1 in Hb by lia.
  simpl in Hb. rewrite Hcur in Hb. injection Hb as <-.
  exists d. split; [done|]. intros j c' d' Hj Hc' Hd'.
  apply (Hmin c' d'); [|done].
  rewrite Hperm. rewrite <- Hperm'.
  destruct (decide (j < length added)) as [Hjl|Hjg].
  - rewrite lookup_app_l in Hc' by done.
    apply list_elem_of_further, elem_of_app. left.
    by eapply list_elem_of_lookup_2.
  - assert (j = length added) as -> by lia.
    rewrite list_lookup_middle in Hc' by done. injection Hc' as <-.
    apply list_elem_of_here.
Qed.

Lemma build_from_bottom_shape (image_strips out rest : list Strip) :
  build_from_bottom store image_strips = Some (Ok (out, rest)) ->
  exists b added,
    find_bottom_strip store image_strips = Ok (Some b) /\
    out = added ++ [b] /\
    forall k a b', k < length added ->
      out !! k = Some a -> out !! S k = Some b' ->
      exists d, upward_distance store b' a d /\
        forall j c d', j <= k -> out !! j = Some c ->
          upward_distance store b' c d' -> (d <= d')%Z.
Proof.
  unfold build_from_bottom.
  destruct (find_bottom_strip store image_strips) as [[b|]|e]; try done.
  destruct (list_remove b image_strips) as [remaining|e]; [|done].
  destruct (chain_upwards store _ _ remaining) as [[[linked rest']|e]|] eqn:Hr;
    try done.
  destruct (chain_upwards_greedy _ _ _ _ _ _ (represents_init b) Hr)
    as (added & Hrep & _ & Hgreedy).
  rewrite (represents_to_list _ _ Hrep). intros [= <- <-].
  by exists b, added.
Qed.

(** X9: the strip chosen by [find_bottom_strip] is the last element of the
    list the builder returns: the anchor stays at the bottom. *)
Theorem build_from_bottom_anchor_last (image_strips out rest : list Strip) :
  build_from_bottom store image_strips = Some (Ok (out, rest)) ->
  exists b, find_bottom_strip store image_strips = Ok (Some b) /\
            last out = Some b.
Proof.
  intros (b & added & Hfind & -> & _)%build_from_bottom_shape.
  exists b. split; [done|]. apply last_snoc.
Qed.

(** X10: the returned order is a greedy nearest-neighbour chain: each strip
    lies on the strip below it as the nearest of all strips that were still
    unplaced, which are those at or above its own position in the result. *)
Theorem build_from_bottom_chained (image_strips out rest : list Strip) :
  build_from_bottom store image_strips = Some (Ok (out, rest)) ->
  chained store out.
Proof.
  intros (b & added & _ & -> & Hgreedy)%build_from_bottom_shape.
  intros k a b' Ha Hb'. apply Hgreedy; [|done|done].
  apply lookup_lt_Some in Hb'. rewrite length_app in Hb'. simpl in Hb'. lia.
Qed.

End BuilderOutcomes.

(** ** Only the border rows matter *)

Section BorderRows.

Variables store1 store2 : Strip -> Image.

Hypothesis Hborder : same_border_rows store1 store2.

Lemma top_row_border (s : Strip) : top_row store1 s = top_row store2 s.
Proof. unfold top_row, subscript. by destruct (Hborder s) as [-> _]. Qed.

Lemma bottom_row_border (s : Strip) :
  bottom_row store1 s = bottom_row store2 s.
Proof. unfold bottom_row, subscript_last. by destruct (Hborder s) as [_ ->]. Qed.

Lemma collect_ext {A B : Type} (f g : A -> result B) (xs : list A) :
  (forall x, f x = g x) -> collect f xs = collect g xs.
Proof.
  intros Hfg. induction xs as [|x xs IH]; simpl; [done|].
  by rewrite Hfg, IH.
Qed.

Lemma best_match_score_border (strips : list Strip) (c : Strip) :
  best_match_score store1 strips c = best_match_score store2 strips c.
Proof.
  unfold best_match_score. rewrite bottom_row_border.
  destruct (bottom_row store2 c) as [b|e]; simpl; [|done].
  erewrite collect_ext; [done|]. intros o. simpl.
  by rewrite top_row_border.
Qed.

Lemma find_bottom_strip_border (strips : list Strip) :
  find_bottom_strip store1 strips = find_bottom_strip store2 strips.
Proof.
  unfold find_bottom_strip.
  rewrite (for_each_ext _ (find_bottom_step store2 strips)); [done|].
  intros st c _. unfold find_bottom_step. by rewrite best_match_score_border.
Qed.

Lemma find_most_similar_border (cur : Strip) (pool : list Strip) :
  find_most_similar_strip_for_upwards store1 cur pool =
  find_most_similar_strip_for_upwards store2 cur pool.
Proof.
  unfold find_most_similar_strip_for_upwards. rewrite top_row_border.
  destruct (top_row store2 cur) as [t|e]; simpl; [|done].
  rewrite (for_each_ext _ (upwards_step store2 t)); [done|].
  intros st c _. unfold upwards_step. by rewrite bottom_row_border.
Qed.

Lemma chain_upwards_border (fuel : nat) (linked : LinkedList)
    (pool : list Strip) :
  chain_upwards store1 fuel linked pool = chain_upwards store2 fuel linked pool.
Proof.
  revert linked pool. induction fuel as [|fuel IH]; intros linked pool;
    destruct pool as [|p pool]; try done.
  cbn [chain_upwards]. destruct (head_strip linked) as [cur|]; [|done].
  rewrite find_most_similar_border.
  destruct (find_most_similar_strip_for_upwards store2 cur (p :: pool))
    as [[c|]|e]; try done.
  destruct (list_remove c (p :: pool)); [apply IH | done].
Qed.

(** X11: the order computed by the builder depends on the strips only
    through the first and the last pixel row of each: two collections of
    images that agree on these rows are ordered alike (or fail alike),
    whatever lies between the border rows and however high the strips are. *)
Theorem build_from_bottom_border_rows (image_strips : list Strip) :
  build_from_bottom store1 image_strips = build_from_bottom store2 image_strips.
Proof.
  unfold build_from_bottom. rewrite find_bottom_strip_border.
  destruct (find_bottom_strip store2 image_strips) as [[b|]|e]; try done.
  destruct (list_remove b image_strips) as [remaining|e]; [|done].
  by rewrite chain_upwards_border.
Qed.

End BorderRows.

(** ** More on the row distance *)

Section RowDistanceMore.

Lemma rows_comparison_app (rowA rowB rowA' rowB' : list Pixel) :
  length rowA = length rowB ->
  rows_comparison (rowA ++ rowA') (rowB ++ rowB') =
  rows_comparison rowA rowB + rows_comparison rowA' rowB'.
Proof.
  revert rowB. induction rowA as [|p rowA IH]; intros [|q rowB] Hlen;
    simpl in Hlen; try discriminate.
  - by rewrite rows_comparison_nil_l.
  - simpl. rewrite !rows_comparison_cons, IH by lia. lia.
Qed.

(** X12: the row distance is never negative, and it adds up over
    concatenation: when two rows are each split at the same position, their
    distance is the sum of the distances of the parts, so dropping columns
    on the right never increases it. *)
Theorem rows_comparison_additive (rowA rowB rowA' rowB' : list Pixel) :
  0 <= rows_comparison rowA rowB /\
  (length rowA = length rowB ->
   rows_comparison (rowA ++ rowA') (rowB ++ rowB') =
     rows_comparison rowA rowB + rows_comparison rowA' rowB' /\
   rows_comparison rowA rowB <= rows_comparison (rowA ++ rowA') (rowB ++ rowB')).
Proof.
  split; [apply rows_comparison_nonneg|]. intros Hlen.
  rewrite rows_comparison_app by done.
  pose proof (rows_comparison_nonneg rowA' rowB'). split; lia.
Qed.

End RowDistanceMore.

(** ** More on the compositor *)

Section CompositorMore.

Local Open Scope nat_scope.

Variable store : Strip -> Image.

Lemma stackable_merge (w : nat) (first : Strip) (rest : list Strip) :
  stackable store w (first :: rest) ->
  merge_ordered_strips store (first :: rest) =
  Ok (mkImage w (sum_list_with (fun s => get_height (store s)) (first :: rest))
              (stacked_rows store (first :: rest))).
Proof.
  intros [Hwf Hw].
  pose proof (Forall_inv Hw) as Hfirst. simpl in Hfirst. subst w.
  by apply merge_ordered_strips_concat.
Qed.

Lemma stacked_rows_well_formed (w : nat) (strips : list Strip) :
  stackable store w strips ->
  length (stacked_rows store strips) =
    sum_list_with (fun s => get_height (store s)) strips /\
  Forall (fun row => length row = w) (stacked_rows store strips).
Proof.
  unfold stacked_rows. intros [Hwf Hw].
  induction strips as [|s strips IH]; simpl; [by split|].
  apply Forall_cons in Hwf as [[Hh Hrows] Hwf].
  apply Forall_cons in Hw as [Hs Hw].
  destruct (IH Hwf Hw) as [IH1 IH2]. rewrite length_app. split; [lia|].
  apply Forall_app. split; [|done]. by rewrite <- Hs.
Qed.

(** X13: the image returned for well-formed strips of one width is itself
    well-formed, and its rows are exactly the rows of the strips, strip after
    strip: no row of the freshly allocated buffer is left as it was. *)
Theorem merge_ordered_strips_stacks (w : nat) (first : Strip)
    (rest : list Strip) :
  stackable store w (first :: rest) ->
  exists out,
    merge_ordered_strips store (first :: rest) = Ok out /\
    well_formed out /\
    get_width out = w /\
    pixels out = stacked_rows store (first :: rest).
Proof.
  intros Hst. eexists. split; [by apply stackable_merge|].
  destruct (stacked_rows_well_formed w _ Hst) as [Hlen Hrows].
  split; [by split|]. by split.
Qed.

(** X14: compositing distributes over concatenation of the strip list: the
    image of [xs ++ ys] is the image of [xs] on top of the image of [ys]. *)
Theorem merge_ordered_strips_app (w : nat) (x y : Strip) (xs ys : list Strip) :
  stackable store w ((x :: xs) ++ (y :: ys)) ->
  exists top bottom out,
    merge_ordered_strips store (x :: xs) = Ok top /\
    merge_ordered_strips store (y :: ys) = Ok bottom /\
    merge_ordered_strips store ((x :: xs) ++ (y :: ys)) = Ok out /\
    pixels out = pixels top ++ pixels bottom /\
    get_height out = get_height top + get_height bottom /\
    get_width out = get_width top /\ get_width out = get_width bottom.
Proof.
  intros Hst. pose proof Hst as [Hwf Hw].
  apply Forall_app in Hwf as [Hwf1 Hwf2]. apply Forall_app in Hw as [Hw1 Hw2].
  do 3 eexists.
  split; [by apply (stackable_merge w)|].
  split; [by apply (stackable_merge w)|].
  split; [by apply (stackable_merge w x (xs ++ y :: ys))|].
  cbn [pixels get_height get_width]. unfold stacked_rows.
  change (x :: xs ++ y :: ys) with ((x :: xs) ++ (y :: ys)).
  by rewrite map_app, concat_app, sum_list_with_app.
Qed.

(** X15: the two stages composed.  On an orderable collection of well-formed
    strips of one width the pipeline returns a well-formed image of that
    width whose height is the total height of the input strips and whose
    rows are the rows of a rearrangement of the input, stacked. *)
Theorem reconstruct_stacks_all (w : nat) (image_strips : list Strip) :
  orderable store image_strips ->
  stackable store w image_strips ->
  exists ordered img,
    build_from_bottom store image_strips = Some (Ok (ordered, [])) /\
    ordered ≡ₚ image_strips /\
    reconstruct store image_strips = Some (Ok img) /\
    well_formed img /\
    get_width img = w /\
    get_height img =
      sum_list_with (fun s => get_height (store s)) image_strips /\
    pixels img = stacked_rows store ordered.
Proof.
  intros Hord [Hwf Hw].
  destruct (build_from_bottom_orderable store _ Hord) as (ordered & Hrun & Hperm).
  assert (stackable store w ordered) as Hst
    by (split; by rewrite Hperm).
  destruct ordered as [|first rest].
  { apply Permutation_nil_l in Hperm. by destruct Hord as [? _]. }
  destruct (stacked_rows_well_formed w _ Hst) as [Hlen Hrows].
  exists (first :: rest). eexists.
  split; [done|]. split; [done|]. unfold reconstruct. rewrite Hrun.
  split; [by rewrite (stackable_merge w)|].
  split; [by split|]. split; [done|]. split; [|done].
  cbn [get_height]. by rewrite Hperm.
Qed.

End CompositorMore.

(** ** The further properties on concrete data *)

Section MoreExamples.

Local Open Scope nat_scope.

Lemma sample_list_built : built sample_list [0; 1; 2].
Proof.
  exact (built_append _ _ 2 (built_prepend _ _ 0 (built_init 1))).
Qed.

Lemma scenario_orderable : orderable scenario_store [0; 1; 2].
Proof.
  apply NoDup_orderable;
    [simpl; lia | exact scenario_NoDup | exact scenario_has_rows].
Qed.

Lemma scenario_stackable : stackable scenario_store 2 [1; 2; 0].
Proof. split; repeat constructor. Qed.

Lemma scenario_input_stackable : stackable scenario_store 2 [0; 1; 2].
Proof. split; repeat constructor. Qed.

Lemma scenario_tall_border_rows : same_border_rows scenario_store tall_store.
Proof. intros [|[|[|s]]]; by split. Qed.

Lemma scenario_exact_distance : upward_distance scenario_store 0 0 0%Z.
Proof. exists [black; black], [black; black]. by repeat split. Qed.

(** The order changes nothing when only the middle row of each strip
    changes. *)
Example tall_order :
  build_from_bottom tall_store [0; 1; 2] = Some (Ok ([1; 2; 0], [])).
Proof. reflexivity. Qed.

(** Two references to one object cannot be ordered. *)
Example same_object_twice :
  build_from_bottom scenario_store [0; 0] = Some (Raise ValueError).
Proof. reflexivity. Qed.

(** A strip without rows makes the builder raise. *)
Example strip_without_rows :
  build_from_bottom scenario_store [0; 3; 1] = Some (Raise IndexError).
Proof. reflexivity. Qed.

Lemma to_list_built_witness : to_list sample_list = Some [0; 1; 2].
Proof. apply (to_list_built sample_list [0; 1; 2]). exact sample_list_built.
Defined.

Lemma built_doubly_linked_witness :
  (forall b, Some 2 = Some b ->
     exists nd', nodes sample_list !! b = Some nd' /\ prev nd' = Some 0) /\
  (forall b, Some 1 = Some b ->
     exists nd', nodes sample_list !! b = Some nd' /\ next nd' = Some 0) /\
  (Some 1 = None <-> 0 = head sample_list) /\
  (Some 2 = None <-> 0 = tail sample_list).
Proof.
  apply (built_doubly_linked sample_list [0; 1; 2] 0
           (mkNode 1 (Some 1) (Some 2))).
  - exact sample_list_built.
  - reflexivity.
Defined.

Lemma built_head_tail_witness :
  head_strip sample_list = [0; 1; 2] !! 0 /\
  (strip <$> nodes sample_list !! (tail sample_list)) = last [0; 1; 2] /\
  is_Some (head_strip sample_list).
Proof.
  apply (built_head_tail sample_list [0; 1; 2]). exact sample_list_built.
Defined.

Lemma find_most_similar_result_in_pool_witness :
  (Some 2 = None <-> [1; 2] = []) /\ (forall c, Some 2 = Some c -> c ∈ [1; 2]).
Proof.
  apply (find_most_similar_result_in_pool scenario_store 0 [1; 2] (Some 2)).
  reflexivity.
Defined.

Lemma find_most_similar_exact_match_witness :
  exists c, Some 0 = Some c /\ c ∈ [1; 0; 2] /\
            upward_distance scenario_store 0 c 0%Z.
Proof.
  apply (find_most_similar_exact_match scenario_store 0 0 [1; 0; 2] (Some 0)).
  - reflexivity.
  - apply list_elem_of_further, list_elem_of_here.
  - exact scenario_exact_distance.
Defined.

Lemma build_from_bottom_places_all_witness :
  [] = @nil Strip /\ [1; 2; 0] ≡ₚ [0; 1; 2] /\
  length [1; 2; 0] = length [0; 1; 2].
Proof.
  apply (build_from_bottom_places_all scenario_store [0; 1; 2] [1; 2; 0] []).
  reflexivity.
Defined.

Lemma build_from_bottom_anchor_last_witness :
  exists b, find_bottom_strip scenario_store [0; 1; 2] = Ok (Some b) /\
            last [1; 2; 0] = Some b.
Proof.
  apply (build_from_bottom_anchor_last scenario_store [0; 1; 2] [1; 2; 0] []).
  reflexivity.
Defined.

Lemma build_from_bottom_chained_witness :
  build_from_bottom scenario_store [0; 1; 2] = Some (Ok ([1; 2; 0], [])) /\
  chained scenario_store [1; 2; 0].
Proof.
  split; [reflexivity|].
  apply (build_from_bottom_chained scenario_store [0; 1; 2] [1; 2; 0] []).
  reflexivity.
Defined.

Lemma build_from_bottom_border_rows_witness :
  build_from_bottom scenario_store [0; 1; 2] =
  build_from_bottom tall_store [0; 1; 2].
Proof.
  apply (build_from_bottom_border_rows scenario_store tall_store).
  exact scenario_tall_border_rows.
Defined.

Lemma merge_ordered_strips_stacks_witness :
  exists out,
    merge_ordered_strips scenario_store [1; 2; 0] = Ok out /\
    well_formed out /\
    get_width out = 2 /\
    pixels out = stacked_rows scenario_store [1; 2; 0].
Proof.
  apply (merge_ordered_strips_stacks scenario_store 2 1 [2; 0]).
  exact scenario_stackable.
Defined.

Lemma merge_ordered_strips_app_witness :
  exists top bottom out,
    merge_ordered_strips scenario_store [1] = Ok top /\
    merge_ordered_strips scenario_store [2; 0] = Ok bottom /\
    merge_ordered_strips scenario_store ([1] ++ [2; 0]) = Ok out /\
    pixels out = pixels top ++ pixels bottom /\
    get_height out = get_height top + get_height bottom /\
    get_width out = get_width top /\ get_width out = get_width bottom.
Proof.
  apply (merge_ordered_strips_app scenario_store 2 1 2 [] [0]).
  exact scenario_stackable.
Defined.

Lemma reconstruct_stacks_all_witness :
  exists ordered img,
    build_from_bottom scenario_store [0; 1; 2] = Some (Ok (ordered, [])) /\
    ordered ≡ₚ [0; 1; 2] /\
    reconstruct scenario_store [0; 1; 2] = Some (Ok img) /\
    well_formed img /\
    get_width img = 2 /\
    get_height img =
      sum_list_with (fun s => get_height (scenario_store s)) [0; 1; 2] /\
    pixels img = stacked_rows scenario_store ordered.
Proof.
  apply (reconstruct_stacks_all scenario_store 2 [0; 1; 2]).
  - exact scenario_orderable.
  - exact scenario_input_stackable.
Defined.

End MoreExamples.

(** ** Running the pipeline again *)

Section Rerun.

Local Open Scope nat_scope.

Lemma reconstruct_consuming_image (store : Strip -> Image)
    (image_strips : list Strip) :
  reconstruct store image_strips =
  match reconstruct_consuming store image_strips with
  | None => None
  | Some (Ok (img, _)) => Some (Ok img)
  | Some (Raise e) => Some (Raise e)
  end.
Proof.
  unfold reconstruct, reconstruct_consuming.
  destruct (build_from_bottom store image_strips) as [[[ordered rest]|e]|];
    try done.
  by destruct (merge_ordered_strips store ordered).
Qed.

(** A run that returns an image leaves the caller's list empty. *)
Lemma reconstruct_consuming_empties (store : Strip -> Image)
    (image_strips left_over : list Strip) (img : Image) :
  reconstruct_consuming store image_strips = Some (Ok (img, left_over)) ->
  left_over = [].
Proof.
  unfold reconstruct_consuming.
  destruct (build_from_bottom store image_strips) as [[[ordered rest]|e]|]
    eqn:Hrun; try done.
  destruct (merge_ordered_strips store ordered) as [img'|e]; simpl; [|done].
  intros [= _ <-].
  destruct (build_from_bottom_orderable store image_strips)
    as (out & Hrun' & _); [by eapply build_from_bottom_Ok_orderable|].
  rewrite Hrun' in Hrun. by injection Hrun as _ <-.
Qed.

(** On the emptied list the selector finds nothing and [remove(None)]
    raises. *)
Lemma reconstruct_empty (store : Strip -> Image) :
  reconstruct store [] = Some (Raise ValueError).
Proof. reflexivity. Qed.

(** C8, as amended: a second run of the pipeline on a collection that holds
    the same images in the same order (a copy of the list, or the same files
    loaded again) terminates like the first one, with the very same
    composited image or the same exception.  A second run on the same list
    object does not: a first run that returns an image has emptied the list,
    and the second call raises [ValueError]. *)
Theorem reconstruct_rerun (store1 store2 : Strip -> Image)
    (l1 l2 : list Strip) :
  store1 <$> l1 = store2 <$> l2 ->
  same_identities l1 l2 ->
  (is_Some (reconstruct store1 l1) /\
   reconstruct store1 l1 = reconstruct store2 l2) /\
  (forall img, reconstruct store1 l1 = Some (Ok img) ->
     reconstruct_twice store1 l1 = Some (Ok (img, Raise ValueError))).
Proof.
  intros Hstore Hident.
  split; [by apply reconstruct_same_contents|].
  intros img Himg. rewrite reconstruct_consuming_image in Himg.
  unfold reconstruct_twice.
  destruct (reconstruct_consuming store1 l1) as [[[img' left]|e]|] eqn:Hrun;
    try done.
  injection Himg as ->.
  rewrite (reconstruct_consuming_empties _ _ _ _ Hrun).
  by rewrite reconstruct_empty.
Qed.

(** The scenario's three strips as a fresh copy and as a reload. *)
Lemma reconstruct_rerun_witness :
  (is_Some (reconstruct scenario_store [0; 1; 2]) /\
   reconstruct scenario_store [0; 1; 2] = reconstruct reloaded_store [7; 5; 9]) /\
  (forall img, reconstruct scenario_store [0; 1; 2] = Some (Ok img) ->
     reconstruct_twice scenario_store [0; 1; 2]
       = Some (Ok (img, Raise ValueError))).
Proof.
  apply (reconstruct_rerun scenario_store reloaded_store [0; 1; 2] [7; 5; 9]).
  - reflexivity.
  - exact (NoDup_same_identities _ _ scenario_NoDup reloaded_NoDup).
Defined.

(** C8 as stated fails: run on the scenario's list, the pipeline returns the
    white-gray-black image; run again on that same list, which is now empty,
    it raises instead of returning the image a second time. *)
Lemma rerun_on_consumed_list_raises :
  reconstruct scenario_store [0; 1; 2] =
    Some (Ok (mkImage 2 3 [[white; white]; [gray; gray]; [black; black]])) /\
  reconstruct_consuming scenario_store [0; 1; 2] =
    Some (Ok (mkImage 2 3 [[white; white]; [gray; gray]; [black; black]], [])) /\
  reconstruct_twice scenario_store [0; 1; 2] =
    Some (Ok (mkImage 2 3 [[white; white]; [gray; gray]; [black; black]],
              Raise ValueError)).
Proof. repeat split; reflexivity. Qed.

End Rerun.
